(** * StepTicker: the step-pulse tick engine of Smoothieware

    A shallow embedding of [src/libs/StepTicker.cpp] and the properties of
    its tick handler, block conversion, unstep scheduler, completion
    notifier and motor registry.

    Conventions of the embedding
    - C [float] is IEEE-754 binary32, taken from the parametric
      specification of the Standard Library ([SpecFloat], precision 24,
      exponent bound 128); every operation rounds to nearest-even, as the
      soft-float arithmetic of the target does.
    - [uint32_t] values are [Z] with the wrap-around written out
      ([wrap32]).
    - [std::array] tables are lists read with [!!] and updated with
      [<[ _ := _ ]>]; [std::bitset] is a [Z] bit mask.
    - Calls into collaborators (motor pins, timers, the pending-interrupt
      register, the completion callback) are recorded, in program order, in
      a trace of [event]s returned next to the new state. *)

From Stdlib Require Import ZArith Bool Lia.
From Stdlib Require Import Floats.SpecFloat.
From stdpp Require Import base list.

Local Open Scope Z_scope.

(** ** binary32 arithmetic *)

Module F32.

Definition prec : Z := 24.
Definition emax : Z := 128.

Definition float := spec_float.

Definition add : float -> float -> float := SFadd prec emax.
Definition sub : float -> float -> float := SFsub prec emax.
Definition mul : float -> float -> float := SFmul prec emax.
Definition div : float -> float -> float := SFdiv prec emax.
Definition neg : float -> float := SFopp.

(** [x <= y] and [x >= y] of C: false as soon as one side is a NaN. *)
Definition leb (x y : float) : bool := SFleb x y.
Definition geb (x y : float) : bool := SFleb y x.

(** Conversion of an unsigned integer to [float]. *)
Definition of_uint (n : Z) : float := binary_normalize prec emax n 0 false.

Definition zero : float := S754_zero false.   (* 0    *)
Definition one : float := of_uint 1.          (* 1.0F *)

Definition is_nan (x : float) : bool :=
  match x with S754_nan => true | _ => false end.

End F32.

Arguments F32.add : simpl never.
Arguments F32.sub : simpl never.
Arguments F32.mul : simpl never.
Arguments F32.div : simpl never.
Arguments F32.neg : simpl never.
Arguments F32.leb : simpl never.
Arguments F32.geb : simpl never.
Arguments F32.of_uint : simpl never.
Arguments F32.one : simpl never.
Arguments F32.zero : simpl never.

(** ** Machine integers *)

Definition wrap32 (x : Z) : Z := x mod 2 ^ 32.
Definition wrap8 (x : Z) : Z := x mod 2 ^ 8.

(** ** Data model *)

(** A [StepperMotor*] and the target of the completion [std::function]. *)
Definition StepperMotor := Z.
Definition Callback := Z.

(** [Block], as far as [copy_block] reads it. [steps] is the per-motor
    [uint32_t] array, [direction_bits] the per-motor bitset. *)
Record Block := {
  b_accelerate_until : Z;
  b_decelerate_after : Z;
  b_total_move_ticks : Z;
  b_initial_rate : F32.float;
  b_maximum_rate : F32.float;
  b_acceleration_per_tick : F32.float;
  b_deceleration_per_tick : F32.float;
  b_steps_event_count : Z;
  b_steps : list Z;
  b_direction_bits : Z
}.

(** [block_info]: the fields shared by all motors. *)
Record block_info_t := {
  accelerate_until : Z;
  decelerate_after : Z;
  maximum_rate : F32.float;
  deceleration_per_tick : F32.float;
  total_move_ticks : Z
}.

(** [tick_info[m]]: the integrator of one motor. *)
Record tickinfo_t := {
  steps_per_tick : F32.float;
  counter : F32.float;
  axis_ratio : F32.float;
  acceleration_change : F32.float;
  steps_to_move : Z;
  step_count : Z;
  next_accel_event : Z
}.

Definition set_steps_per_tick (v : F32.float) (t : tickinfo_t) : tickinfo_t :=
  {| steps_per_tick := v; counter := counter t; axis_ratio := axis_ratio t;
     acceleration_change := acceleration_change t;
     steps_to_move := steps_to_move t; step_count := step_count t;
     next_accel_event := next_accel_event t |}.

Definition set_counter (v : F32.float) (t : tickinfo_t) : tickinfo_t :=
  {| steps_per_tick := steps_per_tick t; counter := v;
     axis_ratio := axis_ratio t;
     acceleration_change := acceleration_change t;
     steps_to_move := steps_to_move t; step_count := step_count t;
     next_accel_event := next_accel_event t |}.

Definition set_axis_ratio (v : F32.float) (t : tickinfo_t) : tickinfo_t :=
  {| steps_per_tick := steps_per_tick t; counter := counter t;
     axis_ratio := v; acceleration_change := acceleration_change t;
     steps_to_move := steps_to_move t; step_count := step_count t;
     next_accel_event := next_accel_event t |}.

Definition set_acceleration_change (v : F32.float) (t : tickinfo_t) : tickinfo_t :=
  {| steps_per_tick := steps_per_tick t; counter := counter t;
     axis_ratio := axis_ratio t; acceleration_change := v;
     steps_to_move := steps_to_move t; step_count := step_count t;
     next_accel_event := next_accel_event t |}.

Definition set_steps_to_move (v : Z) (t : tickinfo_t) : tickinfo_t :=
  {| steps_per_tick := steps_per_tick t; counter := counter t;
     axis_ratio := axis_ratio t;
     acceleration_change := acceleration_change t;
     steps_to_move := v; step_count := step_count t;
     next_accel_event := next_accel_event t |}.

Definition set_step_count (v : Z) (t : tickinfo_t) : tickinfo_t :=
  {| steps_per_tick := steps_per_tick t; counter := counter t;
     axis_ratio := axis_ratio t;
     acceleration_change := acceleration_change t;
     steps_to_move := steps_to_move t; step_count := v;
     next_accel_event := next_accel_event t |}.

Definition set_next_accel_event (v : Z) (t : tickinfo_t) : tickinfo_t :=
  {| steps_per_tick := steps_per_tick t; counter := counter t;
     axis_ratio := axis_ratio t;
     acceleration_change := acceleration_change t;
     steps_to_move := steps_to_move t; step_count := step_count t;
     next_accel_event := v |}.

(** What the engine does to the outside, in program order. Motor methods
    are called on [motor[m]]; the event records the table index [m]. *)
Inductive event :=
| EvStep (m : nat)                       (* motor[m]->step()            *)
| EvUnstep (m : nat)                     (* motor[m]->unstep()          *)
| EvSetDirection (m : nat) (dir : bool)  (* motor[m]->set_direction(d)  *)
| EvTimer0Ack                            (* LPC_TIM0->IR |= 1 << 0      *)
| EvTimer1Ack                            (* LPC_TIM1->IR |= 1 << 0      *)
| EvUnstepTimerRestart                   (* LPC_TIM1->TCR = 3; ... = 1  *)
| EvPendSVSet                            (* SCB->ICSR = 0x10000000      *)
| EvFinished (f : Callback)              (* finished_fnc()              *)
| EvStoreOutsideTable (i : nat).         (* motor[i] = m with i past the table *)

Definition event_eqb (a b : event) : bool :=
  match a, b with
  | EvStep m, EvStep n => Nat.eqb m n
  | EvUnstep m, EvUnstep n => Nat.eqb m n
  | EvSetDirection m d, EvSetDirection n e => Nat.eqb m n && Bool.eqb d e
  | EvTimer0Ack, EvTimer0Ack => true
  | EvTimer1Ack, EvTimer1Ack => true
  | EvUnstepTimerRestart, EvUnstepTimerRestart => true
  | EvPendSVSet, EvPendSVSet => true
  | EvFinished f, EvFinished g => Z.eqb f g
  | EvStoreOutsideTable i, EvStoreOutsideTable j => Nat.eqb i j
  | _, _ => false
  end.

(** Number of occurrences of an event in a trace. *)
Fixpoint count_ev (e : event) (tr : list event) : nat :=
  match tr with
  | [] => O
  | x :: tr' => ((if event_eqb e x then 1 else 0) + count_ev e tr')%nat
  end.

Definition is_finished (e : event) : bool :=
  match e with EvFinished _ => true | _ => false end.

(** Number of completion callbacks in a trace. *)
Fixpoint count_finished (tr : list event) : nat :=
  match tr with
  | [] => O
  | x :: tr' => ((if is_finished x then 1 else 0) + count_finished tr')%nat
  end.

(** The engine. [current_tick] is the function-local [static] of the tick
    handler; [next_block] is the one-slot mailbox ([nullptr] is [None]);
    [finished_fnc] is [None] while no callback is registered. *)
Record StepTicker := {
  frequency : F32.float;
  motor : list StepperMotor;
  unstep : Z;
  num_motors : nat;
  move_issued : bool;
  next_block : option Block;
  block_info : block_info_t;
  tick_info : list tickinfo_t;
  current_tick : Z;
  do_move_finished : Z;
  finished_fnc : option Callback
}.

Definition set_motor (v : list StepperMotor) (st : StepTicker) : StepTicker :=
  {| frequency := frequency st; motor := v; unstep := unstep st;
     num_motors := num_motors st; move_issued := move_issued st;
     next_block := next_block st; block_info := block_info st;
     tick_info := tick_info st; current_tick := current_tick st;
     do_move_finished := do_move_finished st;
     finished_fnc := finished_fnc st |}.

Definition set_unstep (v : Z) (st : StepTicker) : StepTicker :=
  {| frequency := frequency st; motor := motor st; unstep := v;
     num_motors := num_motors st; move_issued := move_issued st;
     next_block := next_block st; block_info := block_info st;
     tick_info := tick_info st; current_tick := current_tick st;
     do_move_finished := do_move_finished st;
     finished_fnc := finished_fnc st |}.

Definition set_num_motors (v : nat) (st : StepTicker) : StepTicker :=
  {| frequency := frequency st; motor := motor st; unstep := unstep st;
     num_motors := v; move_issued := move_issued st;
     next_block := next_block st; block_info := block_info st;
     tick_info := tick_info st; current_tick := current_tick st;
     do_move_finished := do_move_finished st;
     finished_fnc := finished_fnc st |}.

Definition set_move_issued (v : bool) (st : StepTicker) : StepTicker :=
  {| frequency := frequency st; motor := motor st; unstep := unstep st;
     num_motors := num_motors st; move_issued := v;
     next_block := next_block st; block_info := block_info st;
     tick_info := tick_info st; current_tick := current_tick st;
     do_move_finished := do_move_finished st;
     finished_fnc := finished_fnc st |}.

Definition set_next_block (v : option Block) (st : StepTicker) : StepTicker :=
  {| frequency := frequency st; motor := motor st; unstep := unstep st;
     num_motors := num_motors st; move_issued := move_issued st;
     next_block := v; block_info := block_info st;
     tick_info := tick_info st; current_tick := current_tick st;
     do_move_finished := do_move_finished st;
     finished_fnc := finished_fnc st |}.

Definition set_block_info (v : block_info_t) (st : StepTicker) : StepTicker :=
  {| frequency := frequency st; motor := motor st; unstep := unstep st;
     num_motors := num_motors st; move_issued := move_issued st;
     next_block := next_block st; block_info := v;
     tick_info := tick_info st; current_tick := current_tick st;
     do_move_finished := do_move_finished st;
     finished_fnc := finished_fnc st |}.

Definition set_tick_info (v : list tickinfo_t) (st : StepTicker) : StepTicker :=
  {| frequency := frequency st; motor := motor st; unstep := unstep st;
     num_motors := num_motors st; move_issued := move_issued st;
     next_block := next_block st; block_info := block_info st;
     tick_info := v; current_tick := current_tick st;
     do_move_finished := do_move_finished st;
     finished_fnc := finished_fnc st |}.

Definition set_current_tick (v : Z) (st : StepTicker) : StepTicker :=
  {| frequency := frequency st; motor := motor st; unstep := unstep st;
     num_motors := num_motors st; move_issued := move_issued st;
     next_block := next_block st; block_info := block_info st;
     tick_info := tick_info st; current_tick := v;
     do_move_finished := do_move_finished st;
     finished_fnc := finished_fnc st |}.

Definition set_do_move_finished (v : Z) (st : StepTicker) : StepTicker :=
  {| frequency := frequency st; motor := motor st; unstep := unstep st;
     num_motors := num_motors st; move_issued := move_issued st;
     next_block := next_block st; block_info := block_info st;
     tick_info := tick_info st; current_tick := current_tick st;
     do_move_finished := v;
     finished_fnc := finished_fnc st |}.

(** ** [StepTicker::unstep_tick] and its interrupt trampoline *)

(** One iteration of the loop: [if(unstep[i]) motor[i]->unstep()]. *)
Definition unstep_motor (u : Z) (i : nat) : list event :=
  if Z.testbit u (Z.of_nat i) then [EvUnstep i] else [].

Definition unstep_tick (st : StepTicker) : StepTicker * list event :=
  (set_unstep 0 st,
   flat_map (unstep_motor (unstep st)) (seq 0 (num_motors st))).

Definition TIMER1_IRQHandler (st : StepTicker) : StepTicker * list event :=
  let '(st', evs) := unstep_tick st in (st', EvTimer1Ack :: evs).

(** ** [StepTicker::PendSV_IRQHandler] *)

Definition PendSV_IRQHandler (st : StepTicker) : StepTicker * list event :=
  if 0 <? do_move_finished st then
    let st' := set_do_move_finished (wrap8 (do_move_finished st - 1)) st in
    match finished_fnc st' with
    | Some f => (st', [EvFinished f])
    | None => (st', [])
    end
  else (st, []).

(** ** [StepTicker::copy_block] *)

(** [block->steps[m]] and [block->direction_bits[m]]. *)
Definition block_steps (block : Block) (m : nat) : Z :=
  default 0 (b_steps block !! m).

Definition block_direction (block : Block) (m : nat) : bool :=
  Z.testbit (b_direction_bits block) (Z.of_nat m).

(** The [if / else if / else if] chain that arms the first phase switch;
    it starts from [next_accel_event = total_move_ticks + 1] and
    [acceleration_change = 0]. *)
Definition classify_phase (block : Block) (t : tickinfo_t) : tickinfo_t :=
  if negb (b_accelerate_until block =? 0) then
    set_acceleration_change (b_acceleration_per_tick block)
      (set_next_accel_event (b_accelerate_until block) t)
  else if b_decelerate_after block =? 0 then
    set_acceleration_change (F32.neg (b_deceleration_per_tick block)) t
  else if negb (b_decelerate_after block =? b_total_move_ticks block) then
    set_next_accel_event (b_decelerate_after block) t
  else t.

(** The body of the per-motor loop for a motor with [steps != 0], after
    [steps_to_move] has been stored. *)
Definition convert_motor (block : Block) (freq inv : F32.float) (steps : Z)
    (t : tickinfo_t) : tickinfo_t :=
  let aratio := F32.mul inv (F32.of_uint steps) in
  let t := set_steps_per_tick
             (F32.div (F32.mul (b_initial_rate block) aratio) freq) t in
  let t := set_counter F32.zero t in
  let t := set_axis_ratio aratio t in
  let t := set_step_count 0 t in
  let t := set_next_accel_event (wrap32 (b_total_move_ticks block + 1)) t in
  let t := set_acceleration_change F32.zero t in
  let t := classify_phase block t in
  set_acceleration_change (F32.mul (acceleration_change t) aratio) t.

(** [1.0F / block->steps_event_count] *)
Definition block_inv (block : Block) : F32.float :=
  F32.div F32.one (F32.of_uint (b_steps_event_count block)).

(** One iteration of [for (m = 0; m < num_motors; m++)]. Indices past the
    table are not part of the model (the store would fall outside it). *)
Definition copy_motor (block : Block) (freq inv : F32.float)
    (acc : list tickinfo_t * list event) (m : nat)
    : list tickinfo_t * list event :=
  let '(ti, evs) := acc in
  match ti !! m with
  | None => acc
  | Some t =>
      let steps := block_steps block m in
      let t := set_steps_to_move steps t in
      if steps =? 0 then (<[m := t]> ti, evs)
      else (<[m := convert_motor block freq inv steps t]> ti,
            evs ++ [EvSetDirection m (block_direction block m)])
  end.

Definition copy_block (block : Block) (st : StepTicker)
    : StepTicker * list event :=
  let bi := {| accelerate_until := b_accelerate_until block;
               decelerate_after := b_decelerate_after block;
               maximum_rate := b_maximum_rate block;
               deceleration_per_tick := b_deceleration_per_tick block;
               total_move_ticks := b_total_move_ticks block |} in
  let inv := block_inv block in
  let '(ti, evs) :=
    fold_left (copy_motor block (frequency st) inv)
              (seq 0 (num_motors st)) (tick_info st, []) in
  (set_move_issued true (set_tick_info ti (set_block_info bi st)), evs).

(** ** [StepTicker::TIMER0_IRQHandler] *)

(** Lines 153-167: the phase switch of one motor on tick [ct]. The outer
    test reads [next_accel_event] once, before the body changes it. *)
Definition accel_event (freq : F32.float) (bi : block_info_t) (ct : Z)
    (t : tickinfo_t) : tickinfo_t :=
  if ct =? next_accel_event t then
    let t :=
      if ct =? accelerate_until bi then
        let t := set_acceleration_change F32.zero t in
        if decelerate_after bi <? total_move_ticks bi then
          let t := set_next_accel_event (decelerate_after bi) t in
          if negb (ct =? decelerate_after bi) then
            set_steps_per_tick
              (F32.div (F32.mul (axis_ratio t) (maximum_rate bi)) freq) t
          else t
        else t
      else t in
    if ct =? decelerate_after bi then
      set_acceleration_change
        (F32.mul (F32.neg (deceleration_per_tick bi)) (axis_ratio t)) t
    else t
  else t.

(** Lines 169-173: protect against rounding errors. *)
Definition rounding_guard (t : tickinfo_t) : tickinfo_t :=
  if F32.leb (steps_per_tick t) F32.zero then
    set_steps_per_tick F32.zero (set_counter F32.one t)
  else t.

(** Lines 175-190: integrate, and step when the counter reaches one. The
    boolean tells whether [motor[m]->step()] was called. *)
Definition integrate_and_step (t : tickinfo_t) : tickinfo_t * bool :=
  let t := set_counter (F32.add (counter t) (steps_per_tick t)) t in
  if F32.geb (counter t) F32.one then
    let t := set_counter (F32.sub (counter t) F32.one) t in
    let t := set_step_count (wrap32 (step_count t + 1)) t in
    if step_count t =? steps_to_move t then (set_steps_to_move 0 t, true)
    else (t, true)
  else (t, false).

(** The loop body for an active motor (lines 150-190). *)
Definition motor_tick (freq : F32.float) (bi : block_info_t) (ct : Z)
    (t : tickinfo_t) : tickinfo_t * bool :=
  let t := set_steps_per_tick
             (F32.add (steps_per_tick t) (acceleration_change t)) t in
  let t := accel_event freq bi ct t in
  let t := rounding_guard t in
  integrate_and_step t.

(** What the loop threads from one motor to the next. *)
Record loop_state := {
  l_tick_info : list tickinfo_t;
  l_unstep : Z;
  l_events : list event;
  l_still_moving : bool
}.

(** One iteration of [for (m = 0; m < num_motors; m++)]. *)
Definition tick_motor (freq : F32.float) (bi : block_info_t) (ct : Z)
    (acc : loop_state) (m : nat) : loop_state :=
  match l_tick_info acc !! m with
  | None => acc
  | Some t =>
      if steps_to_move t =? 0 then acc
      else
        let '(t', stepped) := motor_tick freq bi ct t in
        {| l_tick_info := <[m := t']> (l_tick_info acc);
           l_unstep := if stepped then Z.setbit (l_unstep acc) (Z.of_nat m)
                       else l_unstep acc;
           l_events := if stepped then l_events acc ++ [EvStep m]
                       else l_events acc;
           l_still_moving := true |}
  end.

(** The whole loop, on tick [ct]. *)
Definition tick_motors (ct : Z) (st : StepTicker) : loop_state :=
  fold_left (tick_motor (frequency st) (block_info st) ct)
            (seq 0 (num_motors st))
            {| l_tick_info := tick_info st; l_unstep := unstep st;
               l_events := []; l_still_moving := false |}.

(** Lines 202-220: every motor is done. *)
Definition block_finished (st : StepTicker) : StepTicker * list event :=
  let st := set_current_tick 0 st in
  let '(st, evs) :=
    match next_block st with
    | Some b =>
        let '(st', evs) := copy_block b st in
        (set_next_block None st', evs)
    | None => (set_move_issued false st, [])
    end in
  (st, evs ++ [EvPendSVSet]).

Definition TIMER0_IRQHandler (st : StepTicker) : StepTicker * list event :=
  if negb (move_issued st) then (st, [EvTimer0Ack])
  else
    let ct := wrap32 (current_tick st + 1) in
    let l := tick_motors ct st in
    let st := set_current_tick ct
                (set_unstep (l_unstep l) (set_tick_info (l_tick_info l) st)) in
    let evs := EvTimer0Ack :: l_events l in
    let evs := if negb (l_unstep l =? 0) then evs ++ [EvUnstepTimerRestart]
               else evs in
    if negb (l_still_moving l) then
      let '(st', evs') := block_finished st in (st', evs ++ evs')
    else (st, evs).

(** ** Running the engine *)

(** [n] consecutive timer interrupts, with the trace of all of them. *)
Fixpoint ticks (n : nat) (st : StepTicker) : StepTicker * list event :=
  match n with
  | O => (st, [])
  | S n' =>
      let '(st1, evs1) := TIMER0_IRQHandler st in
      let '(st2, evs2) := ticks n' st1 in
      (st2, evs1 ++ evs2)
  end.

(** Whether the next tick is the one that finds [still_moving] false. *)
Definition finishes_now (st : StepTicker) : bool :=
  move_issued st &&
  negb (l_still_moving (tick_motors (wrap32 (current_tick st + 1)) st)).

(** No tick among the next [n] finds [still_moving] false. *)
Fixpoint keeps_moving (n : nat) (st : StepTicker) : bool :=
  match n with
  | O => true
  | S n' => negb (finishes_now st) &&
            keeps_moving n' (fst (TIMER0_IRQHandler st))
  end.

(** ** The motor registry *)

Section Registry.

(** The capacity of the [motor], [tick_info] and [steps] tables and of
    the bitsets; the constant is declared in a header. *)
Variable k_max_actuators : nat.

(** [motor[num_motors++] = m; return num_motors - 1;]
    The source compares nothing against the capacity. A store whose index
    is past the table is undefined in C++; the model leaves the table as
    it is and records the store. *)
Definition register_motor (m : StepperMotor) (st : StepTicker)
    : StepTicker * Z * list event :=
  let i := num_motors st in
  let st' := set_num_motors (S i) (set_motor (<[i := m]> (motor st)) st) in
  (st', Z.of_nat (num_motors st') - 1,
   if decide (i < k_max_actuators)%nat then []
   else [EvStoreOutsideTable i]).

(** Shape of a constructed engine: the tables have their capacity and
    no more motors are registered than fit. *)
Definition well_formed (st : StepTicker) : Prop :=
  length (motor st) = k_max_actuators /\
  length (tick_info st) = k_max_actuators /\
  (num_motors st <= k_max_actuators)%nat.

End Registry.

(** ** The tick interrupt with its deferred notifier

    Writing [SCB->ICSR] pends the PendSV exception, which is taken as soon
    as the timer handler returns: a tick that raises the signal is followed
    by one run of [PendSV_IRQHandler]. *)

Definition raises_pendsv (evs : list event) : bool :=
  negb (Nat.eqb (count_ev EvPendSVSet evs) 0).

Definition tick_and_notify (st : StepTicker) : StepTicker * list event :=
  let '(st1, evs1) := TIMER0_IRQHandler st in
  if raises_pendsv evs1 then
    let '(st2, evs2) := PendSV_IRQHandler st1 in (st2, evs1 ++ evs2)
  else (st1, evs1).

Fixpoint ticks_notified (n : nat) (st : StepTicker)
    : StepTicker * list event :=
  match n with
  | O => (st, [])
  | S n' =>
      let '(st1, evs1) := tick_and_notify st in
      let '(st2, evs2) := ticks_notified n' st1 in
      (st2, evs1 ++ evs2)
  end.

(** ** The loop, slot by slot

    The iterations of the motor loop are independent: iteration [m] reads
    and writes [tick_info[m]] only. These functions give the effect of one
    tick on one slot; [tick_motors_loop] below shows that the loop is their
    pointwise application. *)

(** The slot after the tick. *)
Definition motor_slot (freq : F32.float) (bi : block_info_t) (ct : Z)
    (t : tickinfo_t) : tickinfo_t :=
  if steps_to_move t =? 0 then t else fst (motor_tick freq bi ct t).

(** Whether the motor is stepped on the tick. *)
Definition motor_steps (freq : F32.float) (bi : block_info_t) (ct : Z)
    (t : tickinfo_t) : bool :=
  if steps_to_move t =? 0 then false else snd (motor_tick freq bi ct t).

Definition slot_events (freq : F32.float) (bi : block_info_t) (ct : Z)
    (ti : list tickinfo_t) (m : nat) : list event :=
  match ti !! m with
  | Some t => if motor_steps freq bi ct t then [EvStep m] else []
  | None => []
  end.

Definition slot_active (ti : list tickinfo_t) (m : nat) : bool :=
  match ti !! m with
  | Some t => negb (steps_to_move t =? 0)
  | None => false
  end.

(** The same for the loop of [copy_block]: the slot after the conversion
    and the call it makes. *)
Definition copy_slot (block : Block) (freq inv : F32.float) (m : nat)
    (t : tickinfo_t) : tickinfo_t :=
  let steps := block_steps block m in
  let t := set_steps_to_move steps t in
  if steps =? 0 then t else convert_motor block freq inv steps t.

Definition copy_events (block : Block) (ti : list tickinfo_t) (m : nat)
    : list event :=
  match ti !! m with
  | Some _ =>
      if block_steps block m =? 0 then []
      else [EvSetDirection m (block_direction block m)]
  | None => []
  end.

(** The bookkeeping of a slot between [copy_block] and the end of the
    block, for a motor commanded [s] steps and stepped [k] times so far:
    [step_count] is [k], and the motor is either still active with fewer
    than [s] steps made, or retired with exactly [s]. *)
Definition slot_progress (s : Z) (k : nat) (t : tickinfo_t) : Prop :=
  step_count t = Z.of_nat k /\
  ((steps_to_move t = s /\ Z.of_nat k < s) \/
   (steps_to_move t = 0 /\ Z.of_nat k = s)).

(** The events of a tick that only paces motors: the interrupt
    acknowledgement, step pulses and the restart of the unstep timer. *)
Definition is_pulse_event (e : event) : Prop :=
  match e with
  | EvTimer0Ack | EvStep _ | EvUnstepTimerRestart => True
  | _ => False
  end.

(** ** Sample engines and blocks

    Concrete inputs on which the statements below are exercised. The
    constructor assigns [frequency] (100 kHz), [unstep], [num_motors],
    [move_issued] and [next_block]; the members it leaves unassigned are
    taken as zero here. *)

Definition zero_tickinfo : tickinfo_t :=
  {| steps_per_tick := F32.zero; counter := F32.zero;
     axis_ratio := F32.zero; acceleration_change := F32.zero;
     steps_to_move := 0; step_count := 0; next_accel_event := 0 |}.

Definition zero_block_info : block_info_t :=
  {| accelerate_until := 0; decelerate_after := 0;
     maximum_rate := F32.zero; deceleration_per_tick := F32.zero;
     total_move_ticks := 0 |}.

Definition new_engine (capacity : nat) : StepTicker :=
  {| frequency := F32.of_uint 100000;
     motor := replicate capacity 0;
     unstep := 0;
     num_motors := O;
     move_issued := false;
     next_block := None;
     block_info := zero_block_info;
     tick_info := replicate capacity zero_tickinfo;
     current_tick := 0;
     do_move_finished := 0;
     finished_fnc := None |}.

(** Registers the motors of [ms] in order on an engine of capacity
    [capacity]. *)
Definition register_all (capacity : nat) (ms : list StepperMotor)
    (st : StepTicker) : StepTicker :=
  fold_left (fun s m => fst (fst (register_motor capacity m s))) ms st.

(** An engine of capacity five with two, and with five, motors. *)
Definition engine2 : StepTicker := register_all 5 [100; 101] (new_engine 5).
Definition engine5 : StepTicker :=
  register_all 5 [100; 101; 102; 103; 104] (new_engine 5).

(** 0.25 *)
Definition quarter : F32.float := F32.div (F32.of_uint 1) (F32.of_uint 4).

(** A trapezoid for two motors: accelerate for two ticks from 0.25 to
    0.75 steps per tick, decelerate after tick six. *)
Definition trapezoid : Block :=
  {| b_accelerate_until := 2; b_decelerate_after := 6;
     b_total_move_ticks := 8;
     b_initial_rate := F32.of_uint 25000;
     b_maximum_rate := F32.of_uint 75000;
     b_acceleration_per_tick := quarter;
     b_deceleration_per_tick := quarter;
     b_steps_event_count := 4;
     b_steps := [4; 2; 0; 0; 0];
     b_direction_bits := 1 |}.

(** [engine2] with the trapezoid activated, as [copy_block] leaves it when
    called to start the engine. *)
Definition engine2_trapezoid : StepTicker := fst (copy_block trapezoid engine2).

(** The same engine one tick later: the next tick is tick 2, the end of
    the acceleration. *)
Definition engine2_tick1 : StepTicker := fst (ticks 1 engine2_trapezoid).

(** A short constant-rate block for the first motor: two steps at half a
    step per tick. *)
Definition cruise : Block :=
  {| b_accelerate_until := 0; b_decelerate_after := 4;
     b_total_move_ticks := 4;
     b_initial_rate := F32.of_uint 50000;
     b_maximum_rate := F32.of_uint 50000;
     b_acceleration_per_tick := F32.zero;
     b_deceleration_per_tick := F32.zero;
     b_steps_event_count := 2;
     b_steps := [2; 0; 0; 0; 0];
     b_direction_bits := 0 |}.

(** The trapezoid has run its six stepping ticks and [cruise] waits in the
    mailbox: the next tick finds every motor done. *)
Definition engine2_handover : StepTicker :=
  fst (ticks 6 (set_next_block (Some cruise) engine2_trapezoid)).

(** A block far faster than the tick rate: three steps' worth of rate per
    tick. *)
Definition overdrive : Block :=
  {| b_accelerate_until := 0; b_decelerate_after := 4;
     b_total_move_ticks := 4;
     b_initial_rate := F32.of_uint 300000;
     b_maximum_rate := F32.of_uint 300000;
     b_acceleration_per_tick := F32.zero;
     b_deceleration_per_tick := F32.zero;
     b_steps_event_count := 5;
     b_steps := [5; 0; 0; 0; 0];
     b_direction_bits := 0 |}.

Definition engine2_overdrive : StepTicker := fst (copy_block overdrive engine2).

(** A pure deceleration of three steps whose rate is used up on the first
    tick: 0.25 steps per tick, losing 0.25 per tick. *)
Definition stall : Block :=
  {| b_accelerate_until := 0; b_decelerate_after := 0;
     b_total_move_ticks := 3;
     b_initial_rate := F32.of_uint 25000;
     b_maximum_rate := F32.of_uint 25000;
     b_acceleration_per_tick := F32.zero;
     b_deceleration_per_tick := quarter;
     b_steps_event_count := 3;
     b_steps := [3; 0; 0; 0; 0];
     b_direction_bits := 0 |}.

Definition engine2_stall : StepTicker := fst (copy_block stall engine2).

(** Registration of the completion callback (done through the header):
    stores the callback in [finished_fnc]. *)
Definition with_finished_fnc (f : Callback) (st : StepTicker) : StepTicker :=
  {| frequency := frequency st; motor := motor st; unstep := unstep st;
     num_motors := num_motors st; move_issued := move_issued st;
     next_block := next_block st; block_info := block_info st;
     tick_info := tick_info st; current_tick := current_tick st;
     do_move_finished := do_move_finished st;
     finished_fnc := Some f |}.

(** Two motors, a completion callback, the block-finished count at zero,
    the trapezoid running and [cruise] waiting in the mailbox. *)
Definition engine2_two_blocks : StepTicker :=
  set_next_block (Some cruise)
    (fst (copy_block trapezoid (with_finished_fnc 7 engine2))).

(** The trapezoid has finished with nothing in the mailbox. *)
Definition engine2_done : StepTicker :=
  fst (TIMER0_IRQHandler (fst (ticks 6 engine2_trapezoid))).

(** A degenerate block: three steps commanded with a reference count of
    zero and a zero rate, so that the rate is [0 * (1 / 0)], not a
    number. *)
Definition degenerate : Block :=
  {| b_accelerate_until := 0; b_decelerate_after := 4;
     b_total_move_ticks := 4;
     b_initial_rate := F32.zero;
     b_maximum_rate := F32.zero;
     b_acceleration_per_tick := F32.zero;
     b_deceleration_per_tick := F32.zero;
     b_steps_event_count := 0;
     b_steps := [3; 0; 0; 0; 0];
     b_direction_bits := 0 |}.

Definition engine2_degenerate : StepTicker :=
  fst (copy_block degenerate engine2).

(** The slot of motor 0 while [degenerate] runs: active, with a rate that
    is not a number and no phase switch that could replace it. *)
Definition stuck (st : StepTicker) : Prop :=
  move_issued st = true /\
  num_motors st = 2%nat /\
  accelerate_until (block_info st) = 0 /\
  decelerate_after (block_info st) = 4 /\
  exists t,
    tick_info st !! 0%nat = Some t /\
    steps_to_move t = 3 /\
    next_accel_event t = 5 /\
    steps_per_tick t = S754_nan.

(** ** Further bookkeeping for the statements on the whole engine *)

(** Whether the tick at index [ct] steps the motor of slot [m]. *)
Definition slot_steps (freq : F32.float) (bi : block_info_t) (ct : Z)
    (ti : list tickinfo_t) (m : nat) : bool :=
  match ti !! m with
  | Some t => motor_steps freq bi ct t
  | None => false
  end.

(** Whether a trace holds a call of [motor[m]->step()]. *)
Definition stepped_in (m : nat) (evs : list event) : bool :=
  negb (Nat.eqb (count_ev (EvStep m) evs) 0).


(** An engine running [cruise], which moves the first motor only. *)
Definition engine2_cruise : StepTicker := fst (copy_block cruise engine2).

(** A block that moves no motor at all. *)
Definition empty_block : Block :=
  {| b_accelerate_until := 0; b_decelerate_after := 4;
     b_total_move_ticks := 4;
     b_initial_rate := F32.of_uint 50000;
     b_maximum_rate := F32.of_uint 50000;
     b_acceleration_per_tick := F32.zero;
     b_deceleration_per_tick := F32.zero;
     b_steps_event_count := 0;
     b_steps := [0; 0; 0; 0; 0];
     b_direction_bits := 0 |}.

(** The two blocks again, with one completion still to be notified. *)
Definition engine2_counted : StepTicker :=
  set_do_move_finished 1 engine2_two_blocks.

(** Registration of several motors in a row, as the set-up code does it:
    the indices returned and the stores recorded, in order. *)
Fixpoint register_motors (capacity : nat) (ms : list StepperMotor)
    (st : StepTicker) : StepTicker * list Z * list event :=
  match ms with
  | [] => (st, [], [])
  | m :: ms' =>
      let '(st1, i, evs1) := register_motor capacity m st in
      let '(st2, idx, evs2) := register_motors capacity ms' st1 in
      (st2, i :: idx, evs1 ++ evs2)
  end.

(** The phase a motor is in after [n] ticks of a block, read off the
    conversion and the phase switch of the tick handler: the acceleration
    per tick ([aratio] is the motor's axis ratio) and the tick of the next
    armed switch. A block accelerates until [accelerate_until], holds its
    rate until [decelerate_after] and decelerates from there; with
    [decelerate_after == total_move_ticks] it does not decelerate, unless
    the acceleration ends on that very tick. *)
Definition phase_at (block : Block) (aratio : F32.float) (n : Z)
    : F32.float * Z :=
  let au := b_accelerate_until block in
  let da := b_decelerate_after block in
  let tmt := b_total_move_ticks block in
  let accelerating := F32.mul (b_acceleration_per_tick block) aratio in
  let decelerating :=
    F32.mul (F32.neg (b_deceleration_per_tick block)) aratio in
  if negb (au =? 0) then
    if n <? au then (accelerating, au)
    else if da <? tmt then
      if n <? da then (F32.zero, da) else (decelerating, da)
    else if au =? da then (decelerating, au)
    else (F32.zero, au)
  else if da =? 0 then (decelerating, wrap32 (tmt + 1))
  else if negb (da =? tmt) then
    if n <? da then (F32.mul F32.zero aratio, da) else (decelerating, da)
  else (F32.mul F32.zero aratio, wrap32 (tmt + 1)).

(** The motor of slot [m] is active on each of the next [n] ticks. *)
Fixpoint active_for (m n : nat) (st : StepTicker) : bool :=
  match n with
  | O => true
  | S n' =>
      move_issued st && slot_active (tick_info st) m &&
      active_for m n' (fst (TIMER0_IRQHandler st))
  end.





(** A block with no plateau: the acceleration ends on tick 2 and the
    deceleration starts on that same tick. Its plateau rate, 0.6 steps per
    tick, differs from the rate reached by then, 0.75. *)
Definition peak : Block :=
  {| b_accelerate_until := 2; b_decelerate_after := 2;
     b_total_move_ticks := 8;
     b_initial_rate := F32.of_uint 25000;
     b_maximum_rate := F32.of_uint 60000;
     b_acceleration_per_tick := quarter;
     b_deceleration_per_tick := quarter;
     b_steps_event_count := 4;
     b_steps := [4; 0; 0; 0; 0];
     b_direction_bits := 0 |}.

(** [peak] after its first tick: the next tick is tick 2. *)
Definition engine2_peak1 : StepTicker :=
  fst (ticks 1 (fst (copy_block peak engine2))).

(** * Properties *)

(** ** Traces *)

Lemma event_eqb_refl (e : event) : event_eqb e e = true.
Proof.
  destruct e; simpl; rewrite ?Nat.eqb_refl, ?Z.eqb_refl; trivial.
  destruct dir; reflexivity.
Qed.

Lemma count_ev_app (e : event) (tr1 tr2 : list event) :
  count_ev e (tr1 ++ tr2) = (count_ev e tr1 + count_ev e tr2)%nat.
Proof.
  induction tr1 as [|x tr1 IH]; simpl; [reflexivity|].
  rewrite IH. lia.
Qed.

Lemma count_finished_app (tr1 tr2 : list event) :
  count_finished (tr1 ++ tr2)
  = (count_finished tr1 + count_finished tr2)%nat.
Proof.
  induction tr1 as [|x tr1 IH]; simpl; [reflexivity|].
  rewrite IH. lia.
Qed.

(** A loop over [0 .. n-1] whose iteration [i] contributes only events
    of its own index contributes the event of index [m] once at most. *)
Lemma count_ev_flat_map_seq (e : event) (f : nat -> list event) (m n : nat) :
  (forall i, i <> m -> count_ev e (f i) = O) ->
  count_ev e (flat_map f (seq 0 n))
  = if (m <? n)%nat then count_ev e (f m) else O.
Proof.
  intros Hother. induction n as [|n IH].
  - reflexivity.
  - rewrite seq_S, flat_map_app, count_ev_app, IH. simpl.
    rewrite app_nil_r.
    destruct (Nat.ltb_spec m n) as [Hlt|Hge].
    + destruct (Nat.ltb_spec m (S n)); [|lia].
      rewrite (Hother n) by lia. lia.
    + destruct (Nat.ltb_spec m (S n)) as [Hlt'|Hge'].
      * assert (n = m) by lia. subst. reflexivity.
      * rewrite (Hother n) by lia. reflexivity.
Qed.

(** ** The unstep scheduler *)

Lemma count_unstep_motor (u : Z) (i m : nat) :
  i <> m -> count_ev (EvUnstep m) (unstep_motor u i) = O.
Proof.
  intros Hne. unfold unstep_motor.
  destruct (Z.testbit u (Z.of_nat i)); simpl; [|reflexivity].
  destruct (Nat.eqb_spec m i); [congruence|reflexivity].
Qed.

Lemma unstep_tick_only_unsteps (u : Z) (n : nat) (e : event) :
  In e (flat_map (unstep_motor u) (seq 0 n)) ->
  exists i, e = EvUnstep i.
Proof.
  rewrite in_flat_map. intros (i & _ & Hin). unfold unstep_motor in Hin.
  destruct (Z.testbit u (Z.of_nat i)); simpl in Hin; [|contradiction].
  destruct Hin as [<-|[]]. eauto.
Qed.

(** C9. When the unstep countdown expires, [unstep_tick] calls [unstep()]
    exactly once on each registered motor whose bit is set in the unstep
    set and on no other motor, does nothing else, and leaves the set
    empty. *)
Theorem unstep_tick_expiry (st : StepTicker) :
  let '(st', evs) := unstep_tick st in
  (forall i : nat,
     count_ev (EvUnstep i) evs
     = if (i <? num_motors st)%nat && Z.testbit (unstep st) (Z.of_nat i)
       then 1%nat else O) /\
  (forall e, In e evs -> exists i, e = EvUnstep i) /\
  unstep st' = 0 /\
  (forall i : nat, Z.testbit (unstep st') (Z.of_nat i) = false) /\
  set_unstep (unstep st) st' = st.
Proof.
  unfold unstep_tick. repeat split.
  - intros i.
    rewrite (count_ev_flat_map_seq _ _ i)
      by (intros j Hj; apply count_unstep_motor; exact Hj).
    destruct (i <? num_motors st)%nat; simpl; [|reflexivity].
    unfold unstep_motor.
    destruct (Z.testbit (unstep st) (Z.of_nat i)); simpl; [|reflexivity].
    rewrite Nat.eqb_refl. reflexivity.
  - apply unstep_tick_only_unsteps.
  - intros i. simpl. apply Z.testbit_0_l.
  - destruct st; reflexivity.
Qed.

(** ** Idle ticks *)

Lemma idle_tick (st : StepTicker) :
  move_issued st = false ->
  TIMER0_IRQHandler st = (st, [EvTimer0Ack]).
Proof.
  intros Hidle. unfold TIMER0_IRQHandler. rewrite Hidle. reflexivity.
Qed.

(** ** The motor registry *)

(** Well-formedness of a concrete engine is settled by evaluation. *)
Ltac solve_well_formed :=
  unfold well_formed; simpl; repeat split; try reflexivity; lia.

(** The claim of C3 fails on a full table: the sixth registration on a
    table of five is not rejected. It returns 5 as if it were a slot,
    counts six motors, and its store falls outside the table. *)
Lemma register_motor_full_table_not_rejected :
  well_formed 5 engine5 /\
  num_motors engine5 = 5%nat /\
  register_motor 5 105 engine5
  = (set_num_motors 6 engine5, 5, [EvStoreOutsideTable 5]).
Proof.
  split; [|split]; [| reflexivity | reflexivity].
  solve_well_formed.
Qed.

(** C3, amended. While the table is not full, [register_motor] stores the
    handle in the first free slot, leaves the other slots alone, counts one
    more motor and returns the index of that slot: indices are handed out
    densely from 0. Nothing is stored outside the table and the engine
    stays well formed. *)
Theorem register_motor_below_capacity (k_max_actuators : nat)
    (m : StepperMotor) (st : StepTicker) :
  well_formed k_max_actuators st ->
  (num_motors st < k_max_actuators)%nat ->
  let '(st', index, evs) := register_motor k_max_actuators m st in
  index = Z.of_nat (num_motors st) /\
  motor st' !! num_motors st = Some m /\
  (forall i, i <> num_motors st -> motor st' !! i = motor st !! i) /\
  num_motors st' = S (num_motors st) /\
  evs = [] /\
  well_formed k_max_actuators st'.
Proof.
  intros (Hmotor & Hti & Hnum) Hfree. unfold register_motor. simpl.
  destruct (decide (num_motors st < k_max_actuators)%nat) as [_|Hn];
    [|contradiction].
  split; [lia|].
  split; [apply list_lookup_insert_eq; lia|].
  split; [intros i Hi; apply list_lookup_insert_ne; congruence|].
  split; [reflexivity|].
  split; [reflexivity|].
  unfold well_formed. simpl. rewrite length_insert. lia.
Qed.

Lemma register_motor_below_capacity_witness :
  let '(st', index, evs) := register_motor 5 102 engine2 in
  index = 2 /\
  motor st' !! 2%nat = Some 102 /\
  (forall i, i <> 2%nat -> motor st' !! i = motor engine2 !! i) /\
  num_motors st' = 3%nat /\
  evs = [] /\
  well_formed 5 st'.
Proof.
  apply (register_motor_below_capacity 5 102 engine2).
  - solve_well_formed.
  - simpl. lia.
Defined.

(** ** The motor loop of the tick handler *)

Lemma tick_motors_loop (freq : F32.float) (bi : block_info_t) (ct : Z)
    (ti0 : list tickinfo_t) (u0 : Z) (n : nat) :
  let l := fold_left (tick_motor freq bi ct) (seq 0 n)
             {| l_tick_info := ti0; l_unstep := u0;
                l_events := []; l_still_moving := false |} in
  length (l_tick_info l) = length ti0 /\
  (forall m, l_tick_info l !! m
             = if (m <? n)%nat then motor_slot freq bi ct <$> (ti0 !! m)
               else ti0 !! m) /\
  l_events l = flat_map (slot_events freq bi ct ti0) (seq 0 n) /\
  l_still_moving l = existsb (slot_active ti0) (seq 0 n).
Proof.
  cbv zeta. induction n as [|n IH].
  - simpl. repeat split.
  - rewrite seq_S, fold_left_app. simpl.
    set (l := fold_left _ _ _) in *.
    destruct IH as (Hlen & Hslot & Hev & Hmov).
    rewrite flat_map_app, existsb_app. simpl. rewrite app_nil_r, orb_false_r.
    assert (Hn : l_tick_info l !! n = ti0 !! n).
    { rewrite Hslot. destruct (Nat.ltb_spec n n); [lia|reflexivity]. }
    unfold tick_motor at 1 2 3 4. rewrite Hn.
    unfold slot_events at 2, slot_active at 2, motor_steps.
    destruct (ti0 !! n) as [t|] eqn:Ht.
    + destruct (steps_to_move t =? 0) eqn:Hact; simpl.
      * rewrite app_nil_r, orb_false_r. repeat split; auto.
        intros m. rewrite Hslot.
        destruct (Nat.ltb_spec m n), (Nat.ltb_spec m (S n)); try lia; auto.
        assert (m = n) by lia. subst m.
        rewrite Ht. simpl. unfold motor_slot. rewrite Hact. reflexivity.
      * destruct (motor_tick freq bi ct t) as [t' stepped] eqn:Htick. simpl.
        rewrite orb_true_r. repeat split.
        -- rewrite length_insert. exact Hlen.
        -- intros m. destruct (Nat.eq_dec m n) as [->|Hne].
           ++ rewrite list_lookup_insert_eq
                by (rewrite Hlen; apply lookup_lt_Some in Ht; exact Ht).
              destruct (Nat.ltb_spec n (S n)); [|lia].
              rewrite Ht. simpl. unfold motor_slot.
              rewrite Hact, Htick. reflexivity.
           ++ rewrite list_lookup_insert_ne by congruence. rewrite Hslot.
              destruct (Nat.ltb_spec m n), (Nat.ltb_spec m (S n));
                try lia; auto.
        -- rewrite Hev. destruct stepped; [reflexivity|].
           rewrite app_nil_r. reflexivity.
    + simpl. rewrite app_nil_r, orb_false_r. repeat split; auto.
      intros m. rewrite Hslot.
      destruct (Nat.ltb_spec m n), (Nat.ltb_spec m (S n)); try lia; auto.
      assert (m = n) by lia. subst m. rewrite Ht. reflexivity.
Qed.

Lemma tick_motors_idle (freq : F32.float) (bi : block_info_t) (ct : Z)
    (l : loop_state) (n : nat) :
  existsb (slot_active (l_tick_info l)) (seq 0 n) = false ->
  fold_left (tick_motor freq bi ct) (seq 0 n) l = l.
Proof.
  induction n as [|n IH]; [reflexivity|].
  rewrite seq_S, existsb_app, fold_left_app. simpl.
  rewrite orb_false_r. intros [Hn Hlast]%orb_false_elim.
  rewrite (IH Hn). unfold tick_motor. unfold slot_active in Hlast.
  destruct (l_tick_info l !! n) as [t|]; [|reflexivity].
  apply negb_false_iff in Hlast. rewrite Hlast. reflexivity.
Qed.

(** ** One tick of one motor *)

Lemma accel_event_keeps (freq : F32.float) (bi : block_info_t) (ct : Z)
    (t : tickinfo_t) :
  let t' := accel_event freq bi ct t in
  steps_to_move t' = steps_to_move t /\ step_count t' = step_count t /\
  counter t' = counter t /\ axis_ratio t' = axis_ratio t.
Proof.
  unfold accel_event.
  repeat match goal with |- context [if ?c then _ else _] =>
    destruct c end; simpl; auto.
Qed.

Lemma rounding_guard_keeps (t : tickinfo_t) :
  let t' := rounding_guard t in
  steps_to_move t' = steps_to_move t /\ step_count t' = step_count t /\
  acceleration_change t' = acceleration_change t /\
  next_accel_event t' = next_accel_event t /\
  axis_ratio t' = axis_ratio t.
Proof.
  unfold rounding_guard.
  destruct (F32.leb (steps_per_tick t) F32.zero); simpl; auto.
Qed.

(** The two outcomes of lines 175-190. *)
Lemma integrate_and_step_cases (t : tickinfo_t) :
  let c := F32.add (counter t) (steps_per_tick t) in
  let '(t', stepped) := integrate_and_step t in
  steps_per_tick t' = steps_per_tick t /\
  acceleration_change t' = acceleration_change t /\
  next_accel_event t' = next_accel_event t /\
  axis_ratio t' = axis_ratio t /\
  stepped = F32.geb c F32.one /\
  if stepped then
    counter t' = F32.sub c F32.one /\
    step_count t' = wrap32 (step_count t + 1) /\
    steps_to_move t'
    = (if wrap32 (step_count t + 1) =? steps_to_move t then 0
       else steps_to_move t)
  else
    counter t' = c /\
    step_count t' = step_count t /\
    steps_to_move t' = steps_to_move t.
Proof.
  unfold integrate_and_step. simpl.
  destruct (F32.geb (F32.add (counter t) (steps_per_tick t)) F32.one);
    simpl; [|repeat split].
  destruct (wrap32 (step_count t + 1) =? steps_to_move t); simpl;
    repeat split.
Qed.

(** The counters of a motor over one tick of the loop body: either
    nothing, or one more step, with the motor retired when the count
    reaches [steps_to_move]. *)
Lemma motor_tick_counts (freq : F32.float) (bi : block_info_t) (ct : Z)
    (t : tickinfo_t) :
  let '(t', stepped) := motor_tick freq bi ct t in
  if stepped then
    step_count t' = wrap32 (step_count t + 1) /\
    steps_to_move t'
    = (if wrap32 (step_count t + 1) =? steps_to_move t then 0
       else steps_to_move t)
  else step_count t' = step_count t /\ steps_to_move t' = steps_to_move t.
Proof.
  unfold motor_tick.
  set (t1 := set_steps_per_tick _ t).
  pose proof (accel_event_keeps freq bi ct t1) as (Ha1 & Ha2 & _).
  pose proof (rounding_guard_keeps (accel_event freq bi ct t1))
    as (Hg1 & Hg2 & _).
  pose proof (integrate_and_step_cases
                (rounding_guard (accel_event freq bi ct t1))) as Hi.
  destruct (integrate_and_step _) as [t' stepped].
  destruct Hi as (_ & _ & _ & _ & _ & Hi).
  rewrite Hg1, Hg2, Ha1, Ha2 in Hi. subst t1. simpl in Hi.
  destruct stepped; tauto.
Qed.

(** ** The loop of [copy_block] *)

Lemma copy_block_loop (block : Block) (freq inv : F32.float)
    (ti0 : list tickinfo_t) (n : nat) :
  let r := fold_left (copy_motor block freq inv) (seq 0 n) (ti0, []) in
  length (fst r) = length ti0 /\
  (forall m, fst r !! m
             = if (m <? n)%nat then copy_slot block freq inv m <$> (ti0 !! m)
               else ti0 !! m) /\
  snd r = flat_map (copy_events block ti0) (seq 0 n).
Proof.
  cbv zeta. induction n as [|n IH].
  - simpl. repeat split.
  - rewrite seq_S, fold_left_app. simpl.
    destruct (fold_left _ _ _) as [ti evs]. simpl in IH.
    destruct IH as (Hlen & Hslot & Hev).
    rewrite flat_map_app. simpl. rewrite app_nil_r.
    assert (Hn : ti !! n = ti0 !! n).
    { rewrite Hslot. destruct (Nat.ltb_spec n n); [lia|reflexivity]. }
    rewrite Hn. unfold copy_events at 2.
    destruct (ti0 !! n) as [t|] eqn:Ht.
    + assert (Hslots : forall t' m,
                t' = copy_slot block freq inv n t ->
                <[n := t']> ti !! m
                = if (m <? S n)%nat
                  then copy_slot block freq inv m <$> (ti0 !! m)
                  else ti0 !! m).
      { intros t' m ->. destruct (Nat.eq_dec m n) as [->|Hne].
        - rewrite list_lookup_insert_eq
            by (rewrite Hlen; apply lookup_lt_Some in Ht; exact Ht).
          destruct (Nat.ltb_spec n (S n)); [|lia]. rewrite Ht. reflexivity.
        - rewrite list_lookup_insert_ne by congruence. rewrite Hslot.
          destruct (Nat.ltb_spec m n), (Nat.ltb_spec m (S n));
            try lia; auto. }
      destruct (block_steps block n =? 0) eqn:Hsteps; simpl.
      * rewrite length_insert, app_nil_r. repeat split; auto.
        intros m. apply Hslots. unfold copy_slot. rewrite Hsteps.
        reflexivity.
      * rewrite length_insert, Hev. repeat split; auto.
        intros m. apply Hslots. unfold copy_slot. rewrite Hsteps.
        reflexivity.
    + simpl. rewrite app_nil_r. repeat split; auto.
      intros m. rewrite Hslot.
      destruct (Nat.ltb_spec m n), (Nat.ltb_spec m (S n)); try lia; auto.
      assert (m = n) by lia. subst m. rewrite Ht. reflexivity.
Qed.

(** The state and the calls of [copy_block], field by field. *)
Lemma copy_block_fields (block : Block) (st : StepTicker) :
  let '(st', evs) := copy_block block st in
  frequency st' = frequency st /\ motor st' = motor st /\
  unstep st' = unstep st /\ num_motors st' = num_motors st /\
  move_issued st' = true /\ next_block st' = next_block st /\
  current_tick st' = current_tick st /\
  do_move_finished st' = do_move_finished st /\
  finished_fnc st' = finished_fnc st /\
  block_info st'
  = {| accelerate_until := b_accelerate_until block;
       decelerate_after := b_decelerate_after block;
       maximum_rate := b_maximum_rate block;
       deceleration_per_tick := b_deceleration_per_tick block;
       total_move_ticks := b_total_move_ticks block |} /\
  length (tick_info st') = length (tick_info st) /\
  (forall m, tick_info st' !! m
             = if (m <? num_motors st)%nat
               then copy_slot block (frequency st) (block_inv block) m
                      <$> (tick_info st !! m)
               else tick_info st !! m) /\
  evs = flat_map (copy_events block (tick_info st)) (seq 0 (num_motors st)).
Proof.
  unfold copy_block.
  pose proof (copy_block_loop block (frequency st) (block_inv block)
                (tick_info st) (num_motors st)) as H.
  cbv zeta in H. destruct (fold_left _ _ _) as [ti evs].
  simpl in *. destruct H as (Hlen & Hslot & Hev). repeat split; auto.
Qed.

Lemma copy_block_no_step (block : Block) (st : StepTicker) (e : event) :
  In e (snd (copy_block block st)) -> exists m d, e = EvSetDirection m d.
Proof.
  pose proof (copy_block_fields block st) as H.
  destruct (copy_block block st) as [st' evs]. simpl.
  destruct H as (_ & _ & _ & _ & _ & _ & _ & _ & _ & _ & _ & _ & ->).
  rewrite in_flat_map. intros (m & _ & Hin). unfold copy_events in Hin.
  destruct (tick_info st !! m); [|contradiction].
  destruct (block_steps block m =? 0); [contradiction|].
  destruct Hin as [<-|[]]. eauto.
Qed.

Lemma count_ev_absent (e : event) (tr : list event) :
  (forall x, In x tr -> event_eqb e x = false) -> count_ev e tr = O.
Proof.
  induction tr as [|x tr IH]; intros H; simpl; [reflexivity|].
  rewrite (H x) by (left; reflexivity).
  rewrite IH by (intros y Hy; apply H; right; exact Hy). reflexivity.
Qed.

(** C5. [copy_block] initialises the slot of every motor with
    [steps[m] > 0] as follows: [steps_to_move = steps[m]], [axis_ratio] is
    [steps[m]] scaled by the inverse of [steps_event_count],
    [steps_per_tick = initial_rate * axis_ratio / frequency],
    [counter = 0], [step_count = 0], and the first phase is chosen in this
    order: acceleration if [accelerate_until != 0]; else deceleration from
    the start if [decelerate_after == 0]; else a plateau armed to end at
    [decelerate_after] if that differs from [total_move_ticks]; else a pure
    plateau with [next_accel_event = total_move_ticks + 1] (in 32-bit
    unsigned arithmetic). In each case the chosen [acceleration_change] is
    multiplied by [axis_ratio]. *)
Theorem copy_block_phase_classification (k_max_actuators : nat)
    (block : Block) (st : StepTicker) (m : nat) :
  well_formed k_max_actuators st ->
  (m < num_motors st)%nat ->
  0 < block_steps block m ->
  let au := b_accelerate_until block in
  let da := b_decelerate_after block in
  let tmt := b_total_move_ticks block in
  let aratio :=
    F32.mul (F32.div F32.one (F32.of_uint (b_steps_event_count block)))
            (F32.of_uint (block_steps block m)) in
  exists t,
    tick_info (fst (copy_block block st)) !! m = Some t /\
    steps_to_move t = block_steps block m /\
    axis_ratio t = aratio /\
    steps_per_tick t
    = F32.div (F32.mul (b_initial_rate block) aratio) (frequency st) /\
    counter t = F32.zero /\
    step_count t = 0 /\
    (au <> 0 ->
     next_accel_event t = au /\
     acceleration_change t
     = F32.mul (b_acceleration_per_tick block) aratio) /\
    (au = 0 -> da = 0 ->
     next_accel_event t = wrap32 (tmt + 1) /\
     acceleration_change t
     = F32.mul (F32.neg (b_deceleration_per_tick block)) aratio) /\
    (au = 0 -> da <> 0 -> da <> tmt ->
     next_accel_event t = da /\
     acceleration_change t = F32.mul F32.zero aratio) /\
    (au = 0 -> da <> 0 -> da = tmt ->
     next_accel_event t = wrap32 (tmt + 1) /\
     acceleration_change t = F32.mul F32.zero aratio) /\
    (0 <= tmt < 2 ^ 32 - 1 -> wrap32 (tmt + 1) = tmt + 1).
Proof.
  intros (_ & Hti & Hnum) Hm Hsteps au da tmt aratio.
  pose proof (copy_block_fields block st) as H.
  destruct (copy_block block st) as [st' evs]. simpl.
  destruct H as (_ & _ & _ & _ & _ & _ & _ & _ & _ & _ & _ & Hslot & _).
  specialize (Hslot m).
  destruct (Nat.ltb_spec m (num_motors st)) as [_|]; [|lia].
  destruct (lookup_lt_is_Some_2 (tick_info st) m) as [t0 Ht0]; [lia|].
  rewrite Ht0 in Hslot. simpl in Hslot.
  eexists. split; [exact Hslot|].
  unfold copy_slot. destruct (Z.eqb_spec (block_steps block m) 0); [lia|].
  unfold convert_motor, classify_phase. fold au da tmt.
  change (F32.mul (block_inv block) (F32.of_uint (block_steps block m)))
    with aratio.
  destruct (Z.eqb_spec au 0) as [Hau|Hau];
    [destruct (Z.eqb_spec da 0) as [Hda|Hda];
       [|destruct (Z.eqb_spec da tmt) as [Hdt|Hdt]]|];
    simpl; repeat split; try reflexivity; try congruence; try tauto.
  all: intros Hr; unfold wrap32; apply Z.mod_small; lia.
Qed.

Lemma copy_block_phase_classification_witness :
  exists t,
    tick_info (fst (copy_block trapezoid engine2)) !! 0%nat = Some t /\
    steps_to_move t = 4 /\
    axis_ratio t = F32.one /\
    steps_per_tick t = quarter /\
    counter t = F32.zero /\
    step_count t = 0 /\
    next_accel_event t = 2 /\
    acceleration_change t = quarter.
Proof.
  destruct (copy_block_phase_classification 5 trapezoid engine2 0)
    as (t & Ht & Hs & Hr & Hspt & Hc & Hn & Hacc & _).
  - solve_well_formed.
  - simpl. lia.
  - reflexivity.
  - destruct Hacc as [Hnae Hac]; [discriminate|].
    exists t.
    split; [exact Ht|]. split; [exact Hs|].
    split; [rewrite Hr; vm_compute; reflexivity|].
    split; [rewrite Hspt; vm_compute; reflexivity|].
    split; [exact Hc|]. split; [exact Hn|]. split; [exact Hnae|].
    rewrite Hac. vm_compute. reflexivity.
Defined.

(** ** The tick handler, case by case *)

Lemma tick_motors_spec (ct : Z) (st : StepTicker) :
  let l := tick_motors ct st in
  length (l_tick_info l) = length (tick_info st) /\
  (forall m, l_tick_info l !! m
             = if (m <? num_motors st)%nat
               then motor_slot (frequency st) (block_info st) ct
                      <$> (tick_info st !! m)
               else tick_info st !! m) /\
  l_events l
  = flat_map (slot_events (frequency st) (block_info st) ct (tick_info st))
             (seq 0 (num_motors st)) /\
  l_still_moving l
  = existsb (slot_active (tick_info st)) (seq 0 (num_motors st)).
Proof. apply tick_motors_loop. Qed.

(** A tick on which some motor is still active. *)
Lemma TIMER0_moving (st : StepTicker) :
  move_issued st = true ->
  let ct := wrap32 (current_tick st + 1) in
  let l := tick_motors ct st in
  l_still_moving l = true ->
  TIMER0_IRQHandler st
  = (set_current_tick ct
       (set_unstep (l_unstep l) (set_tick_info (l_tick_info l) st)),
     if negb (l_unstep l =? 0)
     then (EvTimer0Ack :: l_events l) ++ [EvUnstepTimerRestart]
     else EvTimer0Ack :: l_events l).
Proof.
  intros Hmi ct l Hmov. unfold TIMER0_IRQHandler. rewrite Hmi. simpl.
  fold ct. fold l. rewrite Hmov. simpl. reflexivity.
Qed.

(** The tick on which no motor is active any more: the loop changes
    nothing, and the end-of-block path runs. *)
Lemma TIMER0_finishing (st : StepTicker) :
  move_issued st = true ->
  let ct := wrap32 (current_tick st + 1) in
  l_still_moving (tick_motors ct st) = false ->
  TIMER0_IRQHandler st
  = (fst (block_finished st),
     (if negb (unstep st =? 0) then [EvTimer0Ack; EvUnstepTimerRestart]
      else [EvTimer0Ack]) ++ snd (block_finished st)).
Proof.
  intros Hmi ct Hmov.
  assert (Hl : tick_motors ct st
               = {| l_tick_info := tick_info st; l_unstep := unstep st;
                    l_events := []; l_still_moving := false |}).
  { unfold tick_motors. apply tick_motors_idle. simpl.
    pose proof (tick_motors_spec ct st) as (_ & _ & _ & <-). exact Hmov. }
  unfold TIMER0_IRQHandler. rewrite Hmi. simpl. fold ct. rewrite Hl. simpl.
  assert (Hbf : block_finished
                  (set_current_tick ct
                     (set_unstep (unstep st)
                        (set_tick_info (tick_info st) st)))
                = block_finished st).
  { destruct st. reflexivity. }
  rewrite Hbf. destruct (block_finished st) as [st' evs']. simpl.
  destruct (unstep st =? 0); reflexivity.
Qed.

Lemma count_step_restart (m : nat) (evs : list event) (u : Z) :
  count_ev (EvStep m)
    (if negb (u =? 0) then EvTimer0Ack :: evs ++ [EvUnstepTimerRestart]
     else EvTimer0Ack :: evs)
  = count_ev (EvStep m) evs.
Proof.
  destruct (negb (u =? 0)); simpl; [|reflexivity].
  rewrite count_ev_app. simpl. lia.
Qed.

Lemma count_slot_events (freq : F32.float) (bi : block_info_t) (ct : Z)
    (ti : list tickinfo_t) (m n : nat) :
  count_ev (EvStep m) (flat_map (slot_events freq bi ct ti) (seq 0 n))
  = if (m <? n)%nat then count_ev (EvStep m) (slot_events freq bi ct ti m)
    else O.
Proof.
  apply count_ev_flat_map_seq. intros i Hi. unfold slot_events.
  destruct (ti !! i) as [t|]; [|reflexivity].
  destruct (motor_steps freq bi ct t); [|reflexivity]. simpl.
  destruct (Nat.eqb_spec m i); [congruence|reflexivity].
Qed.

Lemma block_finished_no_step (st : StepTicker) (m : nat) :
  count_ev (EvStep m) (snd (block_finished st)) = O.
Proof.
  unfold block_finished. simpl.
  destruct (next_block st) as [b|]; [|reflexivity].
  pose proof (copy_block_no_step b (set_current_tick 0 st)) as Hno.
  destruct (copy_block b (set_current_tick 0 st)) as [st' evs]. simpl in *.
  rewrite count_ev_app. simpl. rewrite Nat.add_0_r.
  apply count_ev_absent. intros x Hx.
  destruct (Hno x Hx) as (i & d & ->). reflexivity.
Qed.

(** What a tick does to the slot of an active motor. An active motor keeps
    [still_moving] true, so the end-of-block path is not taken. *)
Lemma TIMER0_active_slot (st : StepTicker) (m : nat) (t : tickinfo_t) :
  move_issued st = true ->
  (m < num_motors st)%nat ->
  tick_info st !! m = Some t ->
  steps_to_move t <> 0 ->
  let ct := wrap32 (current_tick st + 1) in
  let r := motor_tick (frequency st) (block_info st) ct t in
  let '(st', evs) := TIMER0_IRQHandler st in
  tick_info st' !! m = Some (fst r) /\
  count_ev (EvStep m) evs = (if snd r then 1%nat else O) /\
  count_ev EvPendSVSet evs = O /\
  current_tick st' = ct /\
  frequency st' = frequency st /\ block_info st' = block_info st /\
  num_motors st' = num_motors st /\ move_issued st' = true /\
  next_block st' = next_block st.
Proof.
  intros Hmi Hm Ht Hact ct r.
  pose proof (tick_motors_spec ct st) as (_ & Hslot & Hev & Hmov).
  assert (Hstill : l_still_moving (tick_motors ct st) = true).
  { rewrite Hmov. apply existsb_exists. exists m. split.
    - apply in_seq. lia.
    - unfold slot_active. rewrite Ht. apply negb_true_iff.
      apply Z.eqb_neq. exact Hact. }
  rewrite (TIMER0_moving st Hmi Hstill). fold ct. simpl.
  apply Z.eqb_neq in Hact.
  split; [|split; [|split]]; [..|repeat split; assumption].
  - rewrite Hslot. destruct (Nat.ltb_spec m (num_motors st)); [|lia].
    rewrite Ht. simpl. unfold motor_slot. rewrite Hact. reflexivity.
  - rewrite count_step_restart, Hev, count_slot_events.
    destruct (Nat.ltb_spec m (num_motors st)); [|lia].
    unfold slot_events. rewrite Ht. unfold motor_steps. rewrite Hact.
    fold r. destruct (snd r); simpl; rewrite ?Nat.eqb_refl; reflexivity.
  - assert (Hno : count_ev EvPendSVSet (l_events (tick_motors ct st)) = O).
    { rewrite Hev. apply count_ev_absent. intros x Hx.
      apply in_flat_map in Hx. destruct Hx as (i & _ & Hx).
      unfold slot_events in Hx. destruct (tick_info st !! i); [|contradiction].
      destruct (motor_steps _ _ _ _); [|contradiction].
      destruct Hx as [<-|[]]. reflexivity. }
    destruct (negb (l_unstep (tick_motors ct st) =? 0)); simpl;
      rewrite ?count_ev_app; simpl; rewrite Hno; reflexivity.
Qed.

(** ** Phase switches *)

Lemma accel_event_at (freq : F32.float) (bi : block_info_t) (ct : Z)
    (t : tickinfo_t) :
  ct = next_accel_event t ->
  let t' := accel_event freq bi ct t in
  (ct = accelerate_until bi -> ct <> decelerate_after bi ->
   acceleration_change t' = F32.zero) /\
  (ct = accelerate_until bi ->
   decelerate_after bi < total_move_ticks bi ->
   next_accel_event t' = decelerate_after bi) /\
  (ct = accelerate_until bi ->
   decelerate_after bi < total_move_ticks bi ->
   ct <> decelerate_after bi ->
   steps_per_tick t'
   = F32.div (F32.mul (axis_ratio t) (maximum_rate bi)) freq) /\
  (ct = decelerate_after bi ->
   acceleration_change t'
   = F32.mul (F32.neg (deceleration_per_tick bi)) (axis_ratio t)).
Proof.
  intros Hev. unfold accel_event. rewrite <- Hev, Z.eqb_refl.
  destruct (Z.eqb_spec ct (accelerate_until bi)) as [Hau|Hau];
    destruct (Z.ltb_spec (decelerate_after bi) (total_move_ticks bi));
    destruct (Z.eqb_spec ct (decelerate_after bi)) as [Hda|Hda];
    simpl; repeat split; intros; try reflexivity; try lia; congruence.
Qed.

Lemma motor_tick_after_event (freq : F32.float) (bi : block_info_t) (ct : Z)
    (t : tickinfo_t) :
  let t1 := accel_event freq bi ct
              (set_steps_per_tick
                 (F32.add (steps_per_tick t) (acceleration_change t)) t) in
  let t' := fst (motor_tick freq bi ct t) in
  acceleration_change t' = acceleration_change t1 /\
  next_accel_event t' = next_accel_event t1 /\
  axis_ratio t' = axis_ratio t /\
  steps_per_tick t'
  = (if F32.leb (steps_per_tick t1) F32.zero then F32.zero
     else steps_per_tick t1).
Proof.
  intros t1 t'. subst t'. unfold motor_tick. fold t1.
  pose proof (integrate_and_step_cases (rounding_guard t1)) as Hi.
  destruct (integrate_and_step (rounding_guard t1)) as [t' stepped].
  destruct Hi as (Hspt & Hac & Hnae & Har & _). simpl.
  pose proof (rounding_guard_keeps t1) as (_ & _ & Hgac & Hgnae & Hgar).
  pose proof (accel_event_keeps freq bi ct
                (set_steps_per_tick
                   (F32.add (steps_per_tick t) (acceleration_change t)) t))
    as (_ & _ & _ & Haar).
  fold t1 in Haar. simpl in Haar.
  rewrite Hac, Hnae, Har, Hspt, Hgac, Hgnae, Hgar, Haar.
  repeat split. unfold rounding_guard.
  destruct (F32.leb (steps_per_tick t1) F32.zero); reflexivity.
Qed.

(** The three fields a phase switch can write, in full. *)
Lemma accel_event_fields (freq : F32.float) (bi : block_info_t) (ct : Z)
    (t : tickinfo_t) :
  ct = next_accel_event t ->
  let t' := accel_event freq bi ct t in
  (~ (ct = accelerate_until bi /\
      decelerate_after bi < total_move_ticks bi /\
      ct <> decelerate_after bi) ->
   steps_per_tick t' = steps_per_tick t) /\
  (~ (ct = accelerate_until bi /\
      decelerate_after bi < total_move_ticks bi) ->
   next_accel_event t' = next_accel_event t) /\
  (ct <> accelerate_until bi -> ct <> decelerate_after bi ->
   acceleration_change t' = acceleration_change t).
Proof.
  intros Hev. unfold accel_event. rewrite <- Hev, Z.eqb_refl.
  destruct (Z.eqb_spec ct (accelerate_until bi)) as [Hau|Hau];
    destruct (Z.ltb_spec (decelerate_after bi) (total_move_ticks bi));
    destruct (Z.eqb_spec ct (decelerate_after bi)) as [Hda|Hda];
    simpl; repeat split; intros; try reflexivity; try lia; try congruence;
    tauto.
Qed.

(** C4. On a tick that is the armed phase switch of an active motor
    ([current_tick == next_accel_event]):
    - if it is the end of acceleration ([== accelerate_until]) the
      acceleration becomes 0, unless deceleration starts on this very tick;
    - if moreover [decelerate_after < total_move_ticks], the next switch
      is armed at [decelerate_after], and, unless this tick is
      [decelerate_after] too, the rate is recomputed as
      [axis_ratio * maximum_rate / frequency] (the rounding guard that
      follows still clamps a non-positive rate to 0);
    - if it is [decelerate_after], the acceleration becomes
      [-deceleration_per_tick * axis_ratio].
    And nothing else is switched: the rate is recomputed in no other
    case (not when the deceleration starts on the same tick, not when
    [decelerate_after >= total_move_ticks], not on a switch that is not
    the end of acceleration), where it is the old rate plus the
    acceleration, clamped by the guard; the armed switch is moved in no
    other case; and the acceleration is kept on a switch that is neither
    bound. *)
Theorem plateau_transition (st : StepTicker) (m : nat) (t : tickinfo_t) :
  move_issued st = true ->
  (m < num_motors st)%nat ->
  tick_info st !! m = Some t ->
  steps_to_move t <> 0 ->
  let ct := wrap32 (current_tick st + 1) in
  let bi := block_info st in
  let plateau_rate :=
    F32.div (F32.mul (axis_ratio t) (maximum_rate bi)) (frequency st) in
  let rate := F32.add (steps_per_tick t) (acceleration_change t) in
  let switched :=
    accel_event (frequency st) bi ct (set_steps_per_tick rate t) in
  ct = next_accel_event t ->
  exists t',
    tick_info (fst (TIMER0_IRQHandler st)) !! m = Some t' /\
    (ct = accelerate_until bi -> ct <> decelerate_after bi ->
     acceleration_change t' = F32.zero) /\
    (ct = accelerate_until bi ->
     decelerate_after bi < total_move_ticks bi ->
     next_accel_event t' = decelerate_after bi) /\
    (ct = accelerate_until bi ->
     decelerate_after bi < total_move_ticks bi ->
     ct <> decelerate_after bi ->
     steps_per_tick switched = plateau_rate /\
     steps_per_tick t'
     = (if F32.leb plateau_rate F32.zero then F32.zero else plateau_rate)) /\
    (ct = decelerate_after bi ->
     acceleration_change t'
     = F32.mul (F32.neg (deceleration_per_tick bi)) (axis_ratio t)) /\
    (~ (ct = accelerate_until bi /\
        decelerate_after bi < total_move_ticks bi /\
        ct <> decelerate_after bi) ->
     steps_per_tick switched = rate /\
     steps_per_tick t'
     = (if F32.leb rate F32.zero then F32.zero else rate)) /\
    (~ (ct = accelerate_until bi /\
        decelerate_after bi < total_move_ticks bi) ->
     next_accel_event t' = next_accel_event t) /\
    (ct <> accelerate_until bi -> ct <> decelerate_after bi ->
     acceleration_change t' = acceleration_change t).
Proof.
  intros Hmi Hm Ht Hact ct bi plateau_rate rate switched Hev.
  pose proof (TIMER0_active_slot st m t Hmi Hm Ht Hact) as Hslot.
  cbv zeta in Hslot. fold ct bi in Hslot.
  destruct (TIMER0_IRQHandler st) as [st' evs]. simpl.
  destruct Hslot as (Hslot & _).
  exists (fst (motor_tick (frequency st) bi ct t)). split; [exact Hslot|].
  pose proof (motor_tick_after_event (frequency st) bi ct t)
    as (Hac & Hnae & _ & Hspt).
  fold rate in Hac, Hnae, Hspt. fold switched in Hac, Hnae, Hspt.
  pose proof (accel_event_at (frequency st) bi ct
                (set_steps_per_tick rate t) Hev) as (E1 & E2 & E3 & E4).
  pose proof (accel_event_fields (frequency st) bi ct
                (set_steps_per_tick rate t) Hev) as (F1 & F2 & F3).
  fold switched in E1, E2, E3, E4, F1, F2, F3.
  rewrite Hac, Hnae, Hspt.
  split; [exact E1|]. split; [exact E2|].
  split; [intros H1 H2 H3; rewrite (E3 H1 H2 H3); split; reflexivity|].
  split; [exact E4|].
  split; [intros Hno; rewrite (F1 Hno); split; reflexivity|].
  split; [exact F2|exact F3].
Qed.

Lemma plateau_transition_witness :
  (exists t',
     tick_info (fst (TIMER0_IRQHandler engine2_tick1)) !! 0%nat = Some t' /\
     acceleration_change t' = F32.zero /\
     next_accel_event t' = 6 /\
     steps_per_tick t' = F32.div (F32.of_uint 3) (F32.of_uint 4)) /\
  (exists t',
     tick_info (fst (TIMER0_IRQHandler engine2_peak1)) !! 0%nat = Some t' /\
     acceleration_change t' = F32.neg quarter /\
     next_accel_event t' = 2 /\
     steps_per_tick t' = F32.div (F32.of_uint 3) (F32.of_uint 4) /\
     F32.div (F32.mul (F32.of_uint 1) (F32.of_uint 60000))
       (F32.of_uint 100000)
     <> F32.div (F32.of_uint 3) (F32.of_uint 4)).
Proof.
  split.
  - edestruct (plateau_transition engine2_tick1 0)
      as (t' & Ht' & E1 & E2 & E3 & _).
    + reflexivity.
    + vm_compute. lia.
    + vm_compute. reflexivity.
    + vm_compute. discriminate.
    + vm_compute. reflexivity.
    + exists t'. split; [exact Ht'|].
      split; [apply E1; vm_compute; [reflexivity|discriminate]|].
      split; [apply E2; vm_compute; reflexivity|].
      destruct E3 as [_ ->]; vm_compute; try reflexivity. discriminate.
  - edestruct (plateau_transition engine2_peak1 0)
      as (t' & Ht' & _ & E2 & _ & E4 & E5 & _).
    + reflexivity.
    + vm_compute. lia.
    + vm_compute. reflexivity.
    + vm_compute. discriminate.
    + vm_compute. reflexivity.
    + exists t'. split; [exact Ht'|].
      split; [rewrite E4; vm_compute; reflexivity|].
      split; [apply E2; vm_compute; reflexivity|].
      split; [|vm_compute; discriminate].
      destruct E5 as [_ ->]; [|vm_compute; reflexivity].
      vm_compute. intros (_ & _ & Hne). apply Hne. reflexivity.
Defined.

(** ** The end of a block *)

Lemma copy_block_only_directions (block : Block) (st : StepTicker)
    (e : event) :
  (forall m d, e <> EvSetDirection m d) ->
  count_ev e (snd (copy_block block st)) = O.
Proof.
  intros He. apply count_ev_absent. intros x Hx.
  destruct (copy_block_no_step block st x Hx) as (m & d & ->).
  destruct e; try reflexivity. simpl.
  destruct (Nat.eqb_spec m0 m); [|reflexivity].
  destruct (Bool.eqb_spec dir d); [|reflexivity].
  subst. exfalso. exact (He m d eq_refl).
Qed.

Lemma block_finished_signals_once (st : StepTicker) :
  count_ev EvPendSVSet (snd (block_finished st)) = 1%nat.
Proof.
  unfold block_finished. simpl.
  destruct (next_block st) as [b|]; [|reflexivity].
  pose proof (copy_block_only_directions b (set_current_tick 0 st)
                EvPendSVSet) as Hno.
  destruct (copy_block b (set_current_tick 0 st)) as [st' evs]. simpl in *.
  rewrite count_ev_app, Hno by discriminate. reflexivity.
Qed.

Lemma finishes_now_elim (st : StepTicker) :
  finishes_now st = true ->
  move_issued st = true /\
  l_still_moving (tick_motors (wrap32 (current_tick st + 1)) st) = false.
Proof.
  unfold finishes_now. intros [H1 H2]%andb_true_iff.
  apply negb_true_iff in H2. auto.
Qed.

(** The tick that finds every motor done: no motor is stepped, the
    end-of-block path runs, and the deferred signal is raised once. *)
Lemma TIMER0_finishing_trace (st : StepTicker) :
  finishes_now st = true ->
  fst (TIMER0_IRQHandler st) = fst (block_finished st) /\
  (forall m, count_ev (EvStep m) (snd (TIMER0_IRQHandler st)) = O) /\
  count_ev EvPendSVSet (snd (TIMER0_IRQHandler st)) = 1%nat.
Proof.
  intros (Hmi & Hmov)%finishes_now_elim.
  rewrite (TIMER0_finishing st Hmi Hmov). simpl. split; [reflexivity|].
  split.
  - intros m. rewrite count_ev_app, block_finished_no_step.
    destruct (negb (unstep st =? 0)); reflexivity.
  - rewrite count_ev_app, block_finished_signals_once.
    destruct (negb (unstep st =? 0)); reflexivity.
Qed.

(** C7. When the mailbox holds a block on the tick that finds every motor
    done, that same tick resets the tick counter to 0, converts and
    activates the pending block and empties the mailbox; it steps no
    motor. The engine stays active, so the following tick is tick 1 of the
    new block: it runs the loop body on the freshly converted slot of
    every active motor. *)
Theorem no_idle_gap (st : StepTicker) (b : Block) :
  finishes_now st = true ->
  next_block st = Some b ->
  let '(st', evs) := TIMER0_IRQHandler st in
  st' = set_next_block None (fst (copy_block b (set_current_tick 0 st))) /\
  current_tick st' = 0 /\
  next_block st' = None /\
  move_issued st' = true /\
  (forall m, count_ev (EvStep m) evs = O) /\
  (forall m t,
     (m < num_motors st')%nat ->
     tick_info st' !! m = Some t ->
     steps_to_move t <> 0 ->
     let r := motor_tick (frequency st') (block_info st') 1 t in
     let '(st'', evs'') := TIMER0_IRQHandler st' in
     current_tick st'' = 1 /\
     tick_info st'' !! m = Some (fst r) /\
     count_ev (EvStep m) evs'' = (if snd r then 1%nat else O)).
Proof.
  intros Hfin Hnb.
  pose proof (TIMER0_finishing_trace st Hfin) as (Hst & Hnostep & _).
  destruct (TIMER0_IRQHandler st) as [st' evs]. simpl in Hst, Hnostep.
  assert (Hst' : st' = set_next_block None
                         (fst (copy_block b (set_current_tick 0 st)))).
  { rewrite Hst. unfold block_finished. simpl. rewrite Hnb.
    destruct (copy_block b (set_current_tick 0 st)). reflexivity. }
  pose proof (copy_block_fields b (set_current_tick 0 st)) as Hf.
  destruct (copy_block b (set_current_tick 0 st)) as [sc evc].
  simpl in Hst'.
  destruct Hf as (_ & _ & _ & _ & Hmi & _ & Hct & _).
  assert (Hmi' : move_issued st' = true) by (rewrite Hst'; exact Hmi).
  assert (Hct' : current_tick st' = 0) by (rewrite Hst'; exact Hct).
  split; [exact Hst'|]. split; [exact Hct'|].
  split; [rewrite Hst'; reflexivity|]. split; [exact Hmi'|].
  split; [exact Hnostep|].
  intros m t Hm Ht Hact.
  pose proof (TIMER0_active_slot st' m t Hmi' Hm Ht Hact) as Hnext.
  cbv zeta in Hnext. rewrite Hct' in Hnext.
  change (wrap32 (0 + 1)) with 1 in Hnext. cbv zeta.
  destruct (TIMER0_IRQHandler st') as [st'' evs''].
  destruct Hnext as (H1 & H2 & _ & H3 & _). auto.
Qed.

Lemma no_idle_gap_witness :
  let '(st', evs) := TIMER0_IRQHandler engine2_handover in
  current_tick st' = 0 /\
  next_block st' = None /\
  move_issued st' = true /\
  block_info st' = block_info (fst (copy_block cruise engine2)) /\
  (forall m, count_ev (EvStep m) evs = O) /\
  current_tick (fst (TIMER0_IRQHandler st')) = 1.
Proof.
  pose proof (no_idle_gap engine2_handover cruise) as H.
  destruct (TIMER0_IRQHandler engine2_handover) as [st' evs] eqn:Hrun.
  destruct H as (Hst & Hct & Hnb & Hmi & Hnostep & Hnext).
  - vm_compute. reflexivity.
  - vm_compute. reflexivity.
  - split; [exact Hct|]. split; [exact Hnb|]. split; [exact Hmi|].
    split; [rewrite Hst; vm_compute; reflexivity|].
    split; [exact Hnostep|].
    assert (Hslot : exists t, tick_info st' !! 0%nat = Some t /\
                              steps_to_move t = 2).
    { rewrite Hst. vm_compute. eexists. split; reflexivity. }
    destruct Hslot as (t & Ht & Hs).
    specialize (Hnext 0%nat t).
    destruct (TIMER0_IRQHandler st') as [st'' evs''].
    apply Hnext.
    + rewrite Hst. vm_compute. lia.
    + exact Ht.
    + rewrite Hs. discriminate.
Defined.

(** ** Idle ticks, continued *)

(** C8. While no block is active ([move_issued] is false) every tick
    returns at once: after any number of ticks the whole engine state
    (tick_info, block_info, counters, unstep set, tick counter, mailbox) is
    what it was, and the only thing each tick did was to acknowledge the
    timer interrupt; no motor is stepped. *)
Theorem idle_ticks_are_noops (st : StepTicker) (n : nat) :
  move_issued st = false ->
  fst (ticks n st) = st /\
  snd (ticks n st) = replicate n EvTimer0Ack /\
  (forall m, count_ev (EvStep m) (snd (ticks n st)) = O).
Proof.
  intros Hidle.
  assert (Hrun : ticks n st = (st, replicate n EvTimer0Ack)).
  { induction n as [|n IH]; simpl; [reflexivity|].
    rewrite (idle_tick st Hidle), IH. reflexivity. }
  rewrite Hrun. simpl. repeat split.
  intros m. clear Hrun. induction n as [|n IH]; simpl; auto.
Qed.

(** The state a block leaves behind when it finishes with an empty
    mailbox is such an idle state. *)
Lemma finish_with_empty_mailbox_idles (st : StepTicker) :
  finishes_now st = true ->
  next_block st = None ->
  move_issued (fst (TIMER0_IRQHandler st)) = false.
Proof.
  intros Hfin Hnb.
  pose proof (TIMER0_finishing_trace st Hfin) as (-> & _).
  unfold block_finished. simpl. rewrite Hnb. reflexivity.
Qed.

Lemma idle_ticks_are_noops_witness :
  fst (ticks 3 engine2_done) = engine2_done /\
  snd (ticks 3 engine2_done) = replicate 3 EvTimer0Ack /\
  (forall m, count_ev (EvStep m) (snd (ticks 3 engine2_done)) = O).
Proof.
  assert (Hidle : move_issued engine2_done = false).
  { unfold engine2_done.
    apply finish_with_empty_mailbox_idles; vm_compute; reflexivity. }
  exact (idle_ticks_are_noops engine2_done 3 Hidle).
Defined.

(** ** Steps per tick *)

(** In any state whatsoever, one tick calls [step()] on a given motor at
    most once. *)
Lemma steps_per_tick_le_1 (st : StepTicker) (m : nat) :
  (count_ev (EvStep m) (snd (TIMER0_IRQHandler st)) <= 1)%nat.
Proof.
  unfold TIMER0_IRQHandler.
  destruct (move_issued st); simpl; [|lia].
  set (ct := wrap32 (current_tick st + 1)).
  pose proof (tick_motors_spec ct st) as (_ & _ & Hev & _).
  assert (Hloop : (count_ev (EvStep m) (l_events (tick_motors ct st)) <= 1)%nat).
  { rewrite Hev, count_slot_events.
    destruct (m <? num_motors st)%nat; [|lia].
    unfold slot_events. destruct (tick_info st !! m); [|simpl; lia].
    destruct (motor_steps _ _ _ _); simpl; [|lia].
    rewrite Nat.eqb_refl. lia. }
  destruct (l_still_moving (tick_motors ct st)); simpl.
  - rewrite count_step_restart. exact Hloop.
  - match goal with |- context [block_finished ?s] =>
      pose proof (block_finished_no_step s m) as Hbf;
      destruct (block_finished s) as [st' evs'] end.
    simpl in *. rewrite count_ev_app, Hbf, Nat.add_0_r.
    rewrite (count_step_restart m (l_events (tick_motors ct st))).
    exact Hloop.
Qed.

(** C10. On one tick an active motor is stepped at most once. It is
    stepped exactly when the counter, after the rate has been added,
    has reached 1.0; then the counter is decremented by 1.0 once, whatever
    is left above stays in the counter for later ticks, and [step_count]
    grows by one. Otherwise counter and [step_count] are left as they
    are. So [step_count] never grows by more than one per tick, also when
    the counter is 2.0 or more. *)
Theorem at_most_one_step_per_tick (st : StepTicker) (m : nat)
    (t : tickinfo_t) :
  move_issued st = true ->
  (m < num_motors st)%nat ->
  tick_info st !! m = Some t ->
  steps_to_move t <> 0 ->
  let ct := wrap32 (current_tick st + 1) in
  let tg := rounding_guard
              (accel_event (frequency st) (block_info st) ct
                 (set_steps_per_tick
                    (F32.add (steps_per_tick t) (acceleration_change t)) t)) in
  let c := F32.add (counter tg) (steps_per_tick tg) in
  let '(st', evs) := TIMER0_IRQHandler st in
  exists t',
    tick_info st' !! m = Some t' /\
    (count_ev (EvStep m) evs <= 1)%nat /\
    (count_ev (EvStep m) evs = 1%nat <-> F32.geb c F32.one = true) /\
    (count_ev (EvStep m) evs = 1%nat ->
     counter t' = F32.sub c F32.one /\
     step_count t' = wrap32 (step_count t + 1)) /\
    (count_ev (EvStep m) evs = O ->
     counter t' = c /\ step_count t' = step_count t) /\
    (0 <= step_count t < 2 ^ 32 - 1 ->
     step_count t <= step_count t' <= step_count t + 1).
Proof.
  intros Hmi Hm Ht Hact ct tg c.
  pose proof (TIMER0_active_slot st m t Hmi Hm Ht Hact) as Hslot.
  cbv zeta in Hslot. fold ct in Hslot.
  destruct (TIMER0_IRQHandler st) as [st' evs].
  destruct Hslot as (Hslot & Hcount & _).
  exists (fst (motor_tick (frequency st) (block_info st) ct t)).
  split; [exact Hslot|]. rewrite Hcount. clear Hslot Hcount.
  unfold motor_tick. fold tg.
  pose proof (integrate_and_step_cases tg) as Hi. cbv zeta in Hi. fold c in Hi.
  destruct (integrate_and_step tg) as [t' stepped]. simpl.
  destruct Hi as (_ & _ & _ & _ & Hstepped & Hi).
  assert (Hsc : step_count tg = step_count t).
  { unfold tg.
    pose proof (rounding_guard_keeps
                  (accel_event (frequency st) (block_info st) ct
                     (set_steps_per_tick
                        (F32.add (steps_per_tick t) (acceleration_change t))
                        t))) as (_ & -> & _).
    pose proof (accel_event_keeps (frequency st) (block_info st) ct
                  (set_steps_per_tick
                     (F32.add (steps_per_tick t) (acceleration_change t)) t))
      as (_ & -> & _).
    reflexivity. }
  rewrite Hsc in Hi. rewrite <- Hstepped.
  destruct stepped.
  - destruct Hi as (Hc & Hcount & _).
    split; [lia|]. split; [tauto|]. split; [auto|]. split; [discriminate|].
    intros Hr. rewrite Hcount. unfold wrap32.
    rewrite Z.mod_small by lia. lia.
  - destruct Hi as (Hc & Hcount & _).
    split; [lia|]. split; [split; discriminate|]. split; [discriminate|].
    split; [auto|]. intros _. lia.
Qed.

Lemma at_most_one_step_per_tick_witness :
  let '(st', evs) := TIMER0_IRQHandler engine2_overdrive in
  exists t',
    tick_info st' !! 0%nat = Some t' /\
    count_ev (EvStep 0) evs = 1%nat /\
    counter t' = F32.of_uint 2 /\
    step_count t' = 1.
Proof.
  pose (t := default zero_tickinfo (tick_info engine2_overdrive !! 0%nat)).
  assert (Hm : (0 < num_motors engine2_overdrive)%nat) by (vm_compute; lia).
  assert (Hact : steps_to_move t <> 0) by (vm_compute; discriminate).
  pose proof (at_most_one_step_per_tick engine2_overdrive 0 t
                eq_refl Hm eq_refl Hact) as H.
  cbv zeta in H.
  destruct (TIMER0_IRQHandler engine2_overdrive) as [st' evs].
  destruct H as (t' & Ht' & _ & Hiff & Hstep & _).
  assert (Hone : count_ev (EvStep 0) evs = 1%nat).
  { apply Hiff. vm_compute. reflexivity. }
  exists t'. split; [exact Ht'|]. split; [exact Hone|].
  destruct (Hstep Hone) as [-> ->]. split; vm_compute; reflexivity.
Defined.

(** ** Step-count bookkeeping over a block *)

Lemma motor_slot_progress (freq : F32.float) (bi : block_info_t) (ct : Z)
    (s : Z) (k : nat) (t : tickinfo_t) :
  s < 2 ^ 32 ->
  slot_progress s k t ->
  slot_progress s
    (k + if motor_steps freq bi ct t then 1 else 0)%nat
    (motor_slot freq bi ct t).
Proof.
  intros Hs (Hk & Hcase). unfold motor_steps, motor_slot.
  destruct (Z.eqb_spec (steps_to_move t) 0) as [Hz|Hnz].
  - rewrite Nat.add_0_r. split; [exact Hk|]. exact Hcase.
  - destruct Hcase as [(Hmove & Hlt)|(Hmove & _)]; [|contradiction].
    pose proof (motor_tick_counts freq bi ct t) as Hc.
    destruct (motor_tick freq bi ct t) as [t' stepped]. simpl.
    destruct stepped.
    + destruct Hc as (Hc1 & Hc2).
      assert (Hw : wrap32 (step_count t + 1) = Z.of_nat (k + 1)).
      { unfold wrap32. rewrite Z.mod_small; lia. }
      rewrite Hw in Hc1, Hc2. split; [exact Hc1|].
      rewrite Hc2, Hmove.
      destruct (Z.eqb_spec (Z.of_nat (k + 1)) s); [right|left]; lia.
    + destruct Hc as (Hc1 & Hc2). rewrite Nat.add_0_r.
      split; [congruence|]. left. lia.
Qed.

(** A tick that does not end the block, seen from one slot. *)
Lemma TIMER0_slot (st : StepTicker) (m : nat) (t : tickinfo_t) :
  finishes_now st = false ->
  (m < num_motors st)%nat ->
  tick_info st !! m = Some t ->
  let ct := wrap32 (current_tick st + 1) in
  let '(st', evs) := TIMER0_IRQHandler st in
  num_motors st' = num_motors st /\
  next_block st' = next_block st /\
  ((move_issued st = false /\ tick_info st' !! m = Some t /\
    count_ev (EvStep m) evs = O) \/
   (move_issued st = true /\
    tick_info st' !! m
    = Some (motor_slot (frequency st) (block_info st) ct t) /\
    count_ev (EvStep m) evs
    = (if motor_steps (frequency st) (block_info st) ct t then 1%nat
       else O))).
Proof.
  intros Hfin Hm Ht ct. unfold finishes_now in Hfin. fold ct in Hfin.
  destruct (move_issued st) eqn:Hmi.
  - simpl in Hfin. apply negb_false_iff in Hfin.
    rewrite (TIMER0_moving st Hmi Hfin). fold ct. simpl.
    split; [reflexivity|]. split; [reflexivity|].
    right. split; [reflexivity|].
    pose proof (tick_motors_spec ct st) as (_ & Hslot & Hev & _).
    split.
    + rewrite Hslot. destruct (Nat.ltb_spec m (num_motors st)); [|lia].
      rewrite Ht. reflexivity.
    + rewrite count_step_restart, Hev, count_slot_events.
      destruct (Nat.ltb_spec m (num_motors st)); [|lia].
      unfold slot_events. rewrite Ht.
      destruct (motor_steps _ _ _ _); simpl; rewrite ?Nat.eqb_refl;
        reflexivity.
  - rewrite (idle_tick st Hmi). split; [reflexivity|].
    split; [reflexivity|]. left. auto.
Qed.

Lemma ticks_progress (m : nat) (s : Z) (n : nat) :
  s < 2 ^ 32 ->
  forall (st : StepTicker) (k : nat) (t : tickinfo_t),
    (m < num_motors st)%nat ->
    tick_info st !! m = Some t ->
    slot_progress s k t ->
    keeps_moving n st = true ->
    let '(stn, tr) := ticks n st in
    num_motors stn = num_motors st /\
    next_block stn = next_block st /\
    exists t',
      tick_info stn !! m = Some t' /\
      slot_progress s (k + count_ev (EvStep m) tr)%nat t'.
Proof.
  intros Hs. induction n as [|n IH]; intros st k t Hm Ht Hp Hkeep.
  - simpl. split; [reflexivity|]. split; [reflexivity|].
    exists t. rewrite Nat.add_0_r. auto.
  - simpl in Hkeep. apply andb_true_iff in Hkeep as [Hnow Hkeep].
    apply negb_true_iff in Hnow.
    pose proof (TIMER0_slot st m t Hnow Hm Ht) as H1. cbv zeta in H1.
    simpl. destruct (TIMER0_IRQHandler st) as [st1 evs1]. simpl in Hkeep.
    destruct H1 as (Hnum1 & Hnb1 & H1).
    assert (H1' : exists t1,
              tick_info st1 !! m = Some t1 /\
              slot_progress s (k + count_ev (EvStep m) evs1)%nat t1).
    { destruct H1 as [(_ & Ht1 & ->)|(_ & Ht1 & ->)].
      - exists t. rewrite Nat.add_0_r. auto.
      - eexists. split; [exact Ht1|].
        apply motor_slot_progress; assumption. }
    destruct H1' as (t1 & Ht1 & Hp1).
    assert (Hm1 : (m < num_motors st1)%nat) by lia.
    specialize (IH st1 _ t1 Hm1 Ht1 Hp1 Hkeep).
    destruct (ticks n st1) as [stn tr].
    destruct IH as (Hnum & Hnb & t' & Ht' & Hp').
    split; [congruence|]. split; [congruence|].
    exists t'. split; [exact Ht'|].
    rewrite count_ev_app, Nat.add_assoc. exact Hp'.
Qed.

(** On the tick that finds [still_moving] false no registered motor is
    active. *)
Lemma finishes_now_inactive (st : StepTicker) (m : nat) (t : tickinfo_t) :
  finishes_now st = true ->
  (m < num_motors st)%nat ->
  tick_info st !! m = Some t ->
  steps_to_move t = 0.
Proof.
  intros (_ & Hmov)%finishes_now_elim Hm Ht.
  pose proof (tick_motors_spec (wrap32 (current_tick st + 1)) st)
    as (_ & _ & _ & Hex).
  rewrite Hmov in Hex. symmetry in Hex.
  assert (Hin : In m (seq 0 (num_motors st))) by (apply in_seq; lia).
  destruct (slot_active (tick_info st) m) eqn:Hact.
  - assert (Hsome : existsb (slot_active (tick_info st))
                      (seq 0 (num_motors st)) = true).
    { apply existsb_exists. exists m. auto. }
    congruence.
  - unfold slot_active in Hact. rewrite Ht in Hact.
    apply negb_false_iff in Hact. apply Z.eqb_eq. exact Hact.
Qed.



(** ** The rounding guard *)

Lemma add_zero_nonpositive (x : F32.float) :
  F32.leb x F32.zero = true -> F32.leb (F32.add F32.zero x) F32.zero = true.
Proof.
  destruct x as [s|s| |s mx ex]; try (destruct s); intros H;
    solve [exact H | discriminate H | reflexivity].
Qed.

Lemma one_plus_zero : F32.add F32.one F32.zero = F32.one.
Proof. reflexivity. Qed.

Lemma one_reaches_one : F32.geb F32.one F32.one = true.
Proof. reflexivity. Qed.

Lemma one_minus_one : F32.sub F32.one F32.one = F32.zero.
Proof. reflexivity. Qed.

Lemma accel_event_off_boundary (freq : F32.float) (bi : block_info_t)
    (ct : Z) (t : tickinfo_t) :
  ct <> accelerate_until bi -> ct <> decelerate_after bi ->
  accel_event freq bi ct t = t.
Proof.
  intros Hau Hda. unfold accel_event.
  apply Z.eqb_neq in Hau. apply Z.eqb_neq in Hda. rewrite Hau, Hda.
  destruct (ct =? next_accel_event t); reflexivity.
Qed.

(** The loop body when the guard fires: the counter is forced to 1.0, the
    rate to 0, and the motor is stepped. *)
Lemma motor_tick_guarded (freq : F32.float) (bi : block_info_t) (ct : Z)
    (t : tickinfo_t) :
  let t1 := accel_event freq bi ct
              (set_steps_per_tick
                 (F32.add (steps_per_tick t) (acceleration_change t)) t) in
  F32.leb (steps_per_tick t1) F32.zero = true ->
  counter (rounding_guard t1) = F32.one /\
  steps_per_tick (rounding_guard t1) = F32.zero /\
  let '(t', stepped) := motor_tick freq bi ct t in
  stepped = true /\
  steps_per_tick t' = F32.zero /\
  counter t' = F32.zero /\
  acceleration_change t' = acceleration_change t1 /\
  step_count t' = wrap32 (step_count t + 1) /\
  steps_to_move t'
  = (if wrap32 (step_count t + 1) =? steps_to_move t then 0
     else steps_to_move t).
Proof.
  intros t1 Hguard.
  assert (Hg : rounding_guard t1
               = set_steps_per_tick F32.zero (set_counter F32.one t1)).
  { unfold rounding_guard. rewrite Hguard. reflexivity. }
  split; [rewrite Hg; reflexivity|]. split; [rewrite Hg; reflexivity|].
  pose proof (motor_tick_counts freq bi ct t) as Hc.
  pose proof (motor_tick_after_event freq bi ct t) as Ha.
  cbv zeta in Ha. fold t1 in Ha. rewrite Hguard in Ha.
  unfold motor_tick in *. fold t1 in Hc, Ha |- *.
  pose proof (integrate_and_step_cases (rounding_guard t1)) as Hi.
  cbv zeta in Hi.
  destruct (integrate_and_step (rounding_guard t1)) as [t' stepped].
  simpl in Ha. destruct Ha as (Hac & _ & _ & Hspt).
  destruct Hi as (_ & _ & _ & _ & Hstepped & Hi).
  rewrite Hg in Hstepped, Hi. simpl in Hstepped, Hi.
  rewrite one_plus_zero in Hstepped, Hi.
  rewrite one_reaches_one in Hstepped. subst stepped.
  destruct Hi as (Hcnt & _). rewrite one_minus_one in Hcnt.
  destruct Hc as (Hsc & Hmove). repeat split; assumption.
Qed.

Lemma moving_tick_events (st : StepTicker) :
  finishes_now st = false ->
  Forall is_pulse_event (snd (TIMER0_IRQHandler st)).
Proof.
  intros Hfin. unfold finishes_now in Hfin.
  destruct (move_issued st) eqn:Hmi.
  - simpl in Hfin. apply negb_false_iff in Hfin.
    rewrite (TIMER0_moving st Hmi Hfin). simpl.
    set (ct := wrap32 (current_tick st + 1)).
    pose proof (tick_motors_spec ct st) as (_ & _ & Hev & _).
    assert (Hloop : Forall is_pulse_event (l_events (tick_motors ct st))).
    { rewrite Hev. apply Forall_forall. intros e Hin.
      apply list_elem_of_In, in_flat_map in Hin.
      destruct Hin as (i & _ & Hin). unfold slot_events in Hin.
      destruct (tick_info st !! i); [|contradiction].
      destruct (motor_steps _ _ _ _); [|contradiction].
      destruct Hin as [<-|[]]. exact I. }
    destruct (negb (l_unstep (tick_motors ct st) =? 0)).
    + apply Forall_cons. split; [exact I|].
      apply Forall_app. split; [exact Hloop|].
      apply Forall_cons. split; [exact I|]. apply Forall_nil. exact I.
    + apply Forall_cons. split; [exact I|exact Hloop].
  - rewrite (idle_tick st Hmi). simpl.
    apply Forall_cons. split; [exact I|]. apply Forall_nil. exact I.
Qed.

Lemma ticks_S_fst (k : nat) (st : StepTicker) :
  fst (ticks (S k) st) = fst (ticks k (fst (TIMER0_IRQHandler st))).
Proof.
  simpl. destruct (TIMER0_IRQHandler st) as [st1 evs1]. simpl.
  destruct (ticks k st1). reflexivity.
Qed.

(** One tick of an active motor on which the guard fires: the rate, once
    the acceleration is added and the phase switch resolved, is zero or
    below. *)
Lemma guarded_tick (st : StepTicker) (m : nat) (t : tickinfo_t) :
  move_issued st = true ->
  (m < num_motors st)%nat ->
  tick_info st !! m = Some t ->
  0 <= step_count t < steps_to_move t ->
  steps_to_move t < 2 ^ 32 ->
  0 <= current_tick st -> current_tick st + 1 < 2 ^ 32 ->
  let t1 := accel_event (frequency st) (block_info st) (current_tick st + 1)
              (set_steps_per_tick
                 (F32.add (steps_per_tick t) (acceleration_change t)) t) in
  F32.leb (steps_per_tick t1) F32.zero = true ->
  let '(st', evs) := TIMER0_IRQHandler st in
  count_ev (EvStep m) evs = 1%nat /\
  Forall is_pulse_event evs /\
  move_issued st' = true /\ num_motors st' = num_motors st /\
  block_info st' = block_info st /\
  current_tick st' = current_tick st + 1 /\
  exists t',
    tick_info st' !! m = Some t' /\
    step_count t' = step_count t + 1 /\
    steps_per_tick t' = F32.zero /\ counter t' = F32.zero /\
    acceleration_change t' = acceleration_change t1 /\
    steps_to_move t'
    = (if step_count t + 1 =? steps_to_move t then 0 else steps_to_move t).
Proof.
  intros Hmi Hm Ht Hsc Hmax Hct0 Hct1 t1 Hguard.
  assert (Hact : steps_to_move t <> 0) by lia.
  assert (Hfin : finishes_now st = false).
  { destruct (finishes_now st) eqn:Hfin; [|reflexivity].
    pose proof (finishes_now_inactive st m t Hfin Hm Ht). contradiction. }
  pose proof (moving_tick_events st Hfin) as Hevs.
  pose proof (TIMER0_active_slot st m t Hmi Hm Ht Hact) as Hslot.
  cbv zeta in Hslot.
  assert (Hct : wrap32 (current_tick st + 1) = current_tick st + 1).
  { unfold wrap32. apply Z.mod_small. lia. }
  rewrite Hct in Hslot.
  pose proof (motor_tick_guarded (frequency st) (block_info st)
                (current_tick st + 1) t) as Hg.
  cbv zeta in Hg. fold t1 in Hg.
  specialize (Hg Hguard). destruct Hg as (_ & _ & Hg).
  destruct (TIMER0_IRQHandler st) as [st' evs]. simpl in Hevs.
  destruct (motor_tick (frequency st) (block_info st)
              (current_tick st + 1) t) as [t' stepped].
  simpl in Hslot.
  destruct Hslot as (Hslot & Hcount & _ & Hct' & _ & Hbi & Hnum & Hmi' & _).
  destruct Hg as (-> & Hspt & Hcnt & Hac & Hsc' & Hmove).
  assert (Hw : wrap32 (step_count t + 1) = step_count t + 1).
  { unfold wrap32. apply Z.mod_small. lia. }
  rewrite Hw in Hsc', Hmove.
  split; [exact Hcount|]. split; [exact Hevs|].
  repeat (split; [assumption|]).
  exists t'. repeat (split; [assumption|]). exact Hmove.
Qed.

(** The same past both phase bounds, where no switch is left to resolve. *)
Lemma decayed_tick (st : StepTicker) (m : nat) (t : tickinfo_t) :
  move_issued st = true ->
  (m < num_motors st)%nat ->
  tick_info st !! m = Some t ->
  0 <= step_count t < steps_to_move t ->
  steps_to_move t < 2 ^ 32 ->
  0 <= current_tick st -> current_tick st + 1 < 2 ^ 32 ->
  accelerate_until (block_info st) <= current_tick st ->
  decelerate_after (block_info st) <= current_tick st ->
  F32.leb (F32.add (steps_per_tick t) (acceleration_change t)) F32.zero
  = true ->
  let '(st', evs) := TIMER0_IRQHandler st in
  count_ev (EvStep m) evs = 1%nat /\
  Forall is_pulse_event evs /\
  move_issued st' = true /\ num_motors st' = num_motors st /\
  block_info st' = block_info st /\
  current_tick st' = current_tick st + 1 /\
  exists t',
    tick_info st' !! m = Some t' /\
    step_count t' = step_count t + 1 /\
    steps_per_tick t' = F32.zero /\ counter t' = F32.zero /\
    acceleration_change t' = acceleration_change t /\
    steps_to_move t'
    = (if step_count t + 1 =? steps_to_move t then 0 else steps_to_move t).
Proof.
  intros Hmi Hm Ht Hsc Hmax Hct0 Hct1 Hau Hda Hguard.
  pose proof (guarded_tick st m t Hmi Hm Ht Hsc Hmax Hct0 Hct1) as H.
  cbv zeta in H. rewrite accel_event_off_boundary in H by lia.
  exact (H Hguard).
Qed.

Lemma decayed_run (m n : nat) :
  forall (st : StepTicker) (t : tickinfo_t),
    move_issued st = true ->
    (m < num_motors st)%nat ->
    tick_info st !! m = Some t ->
    0 <= step_count t ->
    steps_to_move t < 2 ^ 32 ->
    Z.of_nat (S n) <= steps_to_move t - step_count t ->
    0 <= current_tick st -> current_tick st + Z.of_nat (S n) < 2 ^ 32 ->
    accelerate_until (block_info st) <= current_tick st ->
    decelerate_after (block_info st) <= current_tick st ->
    F32.leb (F32.add (steps_per_tick t) (acceleration_change t)) F32.zero
    = true ->
    F32.leb (acceleration_change t) F32.zero = true ->
    (forall k, (k < S n)%nat ->
       count_ev (EvStep m) (snd (TIMER0_IRQHandler (fst (ticks k st))))
       = 1%nat) /\
    let '(stn, tr) := ticks (S n) st in
    count_ev (EvStep m) tr = S n /\
    Forall is_pulse_event tr /\
    exists t',
      tick_info stn !! m = Some t' /\
      step_count t' = step_count t + Z.of_nat (S n) /\
      steps_per_tick t' = F32.zero /\ counter t' = F32.zero /\
      steps_to_move t'
      = (if step_count t + Z.of_nat (S n) =? steps_to_move t then 0
         else steps_to_move t).
Proof.
  induction n as [|n IH];
    intros st t Hmi Hm Ht Hsc Hmax Hn Hct0 Hctn Hau Hda Hguard Hacc.
  - pose proof (decayed_tick st m t Hmi Hm Ht ltac:(lia) Hmax Hct0
                  ltac:(lia) Hau Hda Hguard) as H1.
    split.
    + intros k Hk. assert (k = O) by lia. subst k. simpl.
      destruct (TIMER0_IRQHandler st) as [st1 evs1]. simpl. tauto.
    + simpl. destruct (TIMER0_IRQHandler st) as [st1 evs1].
      rewrite app_nil_r.
      destruct H1 as (Hc & Hev & _ & _ & _ & _ & t' & Ht' & H1).
      split; [exact Hc|]. split; [exact Hev|].
      exists t'. split; [exact Ht'|]. tauto.
  - pose proof (decayed_tick st m t Hmi Hm Ht ltac:(lia) Hmax Hct0
                  ltac:(lia) Hau Hda Hguard) as H1.
    change (ticks (S (S n)) st)
      with (let '(st1, evs1) := TIMER0_IRQHandler st in
            let '(st2, evs2) := ticks (S n) st1 in (st2, evs1 ++ evs2)).
    destruct (TIMER0_IRQHandler st) as [st1 evs1] eqn:Htick.
    assert (Hrun : forall k, fst (ticks (S k) st) = fst (ticks k st1))
      by (intros k; rewrite ticks_S_fst, Htick; reflexivity).
    destruct H1 as (Hc & Hev & Hmi1 & Hnum1 & Hbi1 & Hct1 & t1 & Ht1 &
                    Hsc1 & Hspt1 & Hcnt1 & Hac1 & Hmove1).
    destruct (Z.eqb_spec (step_count t + 1) (steps_to_move t)); [lia|].
    specialize (IH st1 t1 Hmi1 ltac:(lia) Ht1 ltac:(lia) ltac:(lia)
                  ltac:(lia) ltac:(lia) ltac:(lia)
                  ltac:(rewrite Hbi1; lia) ltac:(rewrite Hbi1; lia)).
    rewrite Hspt1, Hac1 in IH.
    specialize (IH (add_zero_nonpositive _ Hacc) Hacc).
    destruct IH as (Hper & IH). split.
    + intros k Hk. destruct k as [|k].
      * simpl. rewrite Htick. exact Hc.
      * rewrite Hrun. apply Hper. lia.
    + destruct (ticks (S n) st1) as [stn tr].
      destruct IH as (Hcn & Hevn & t' & Ht' & Hscn & Hsptn & Hcntn & Hmoven).
      split; [rewrite count_ev_app; lia|].
      split; [apply Forall_app; auto|].
      exists t'. split; [exact Ht'|]. split; [lia|].
      split; [exact Hsptn|]. split; [exact Hcntn|].
      rewrite Hmoven, Hmove1, Hsc1.
      replace (step_count t + 1 + Z.of_nat (S n))
        with (step_count t + Z.of_nat (S (S n))) by lia.
      reflexivity.
Qed.

(** C6. Take a tick on which the rate of an active motor, after the
    acceleration has been added and the phase switch resolved, is zero or
    below. The guard sets the counter to 1.0 and the rate to 0, so the
    motor is stepped on that tick. If moreover the motor is not
    accelerating and no phase bound lies ahead (its rate has decayed), the
    same happens on every following tick: over any [n + 1] ticks that the
    remaining distance allows the motor is stepped once per tick,
    [step_count] grows by [n + 1], and the motor is retired exactly when
    [step_count] reaches [steps_to_move]. The ticks do nothing but
    acknowledge the timer, step motors and restart the unstep timer:
    nothing reports the condition. *)
Theorem rounding_guard_forces_steps (st : StepTicker) (m : nat)
    (t : tickinfo_t) (n : nat) :
  move_issued st = true ->
  (m < num_motors st)%nat ->
  tick_info st !! m = Some t ->
  0 <= step_count t ->
  steps_to_move t < 2 ^ 32 ->
  Z.of_nat (S n) <= steps_to_move t - step_count t ->
  0 <= current_tick st ->
  current_tick st + Z.of_nat (S n) < 2 ^ 32 ->
  let bi := block_info st in
  let ct := current_tick st + 1 in
  accelerate_until bi <= ct ->
  decelerate_after bi <= ct ->
  let t1 := accel_event (frequency st) bi ct
              (set_steps_per_tick
                 (F32.add (steps_per_tick t) (acceleration_change t)) t) in
  F32.leb (steps_per_tick t1) F32.zero = true ->
  F32.leb (acceleration_change t1) F32.zero = true ->
  counter (rounding_guard t1) = F32.one /\
  steps_per_tick (rounding_guard t1) = F32.zero /\
  (forall k, (k < S n)%nat ->
     count_ev (EvStep m) (snd (TIMER0_IRQHandler (fst (ticks k st))))
     = 1%nat) /\
  let '(stn, tr) := ticks (S n) st in
  count_ev (EvStep m) tr = S n /\
  Forall is_pulse_event tr /\
  exists t',
    tick_info stn !! m = Some t' /\
    step_count t' = step_count t + Z.of_nat (S n) /\
    steps_per_tick t' = F32.zero /\
    steps_to_move t'
    = (if step_count t + Z.of_nat (S n) =? steps_to_move t then 0
       else steps_to_move t).
Proof.
  intros Hmi Hm Ht Hsc Hmax Hn Hct0 Hctn bi ct Hau Hda t1 Hguard Hacc.
  assert (Hg : rounding_guard t1
               = set_steps_per_tick F32.zero (set_counter F32.one t1)).
  { unfold rounding_guard. rewrite Hguard. reflexivity. }
  split; [rewrite Hg; reflexivity|]. split; [rewrite Hg; reflexivity|].
  pose proof (guarded_tick st m t Hmi Hm Ht ltac:(lia) Hmax Hct0
                ltac:(lia)) as H1.
  cbv zeta in H1. fold bi ct t1 in H1. specialize (H1 Hguard).
  destruct n as [|n].
  - split.
    + intros k Hk. assert (k = O) by lia. subst k. simpl.
      destruct (TIMER0_IRQHandler st) as [st1 evs1]. simpl. tauto.
    + simpl. destruct (TIMER0_IRQHandler st) as [st1 evs1].
      rewrite app_nil_r.
      destruct H1 as (Hc & Hev & _ & _ & _ & _ & t' & Ht' & H1).
      split; [exact Hc|]. split; [exact Hev|].
      exists t'. split; [exact Ht'|]. tauto.
  - change (ticks (S (S n)) st)
      with (let '(st1, evs1) := TIMER0_IRQHandler st in
            let '(st2, evs2) := ticks (S n) st1 in (st2, evs1 ++ evs2)).
    destruct (TIMER0_IRQHandler st) as [st1 evs1] eqn:Htick.
    assert (Hrun : forall k, fst (ticks (S k) st) = fst (ticks k st1))
      by (intros k; rewrite ticks_S_fst, Htick; reflexivity).
    destruct H1 as (Hc & Hev & Hmi1 & Hnum1 & Hbi1 & Hct1 & t' & Ht1 &
                    Hsc1 & Hspt1 & Hcnt1 & Hac1 & Hmove1).
    destruct (Z.eqb_spec (step_count t + 1) (steps_to_move t)); [lia|].
    pose proof (decayed_run m n st1 t' Hmi1 ltac:(lia) Ht1 ltac:(lia)
                  ltac:(lia) ltac:(lia) ltac:(lia) ltac:(lia)
                  ltac:(rewrite Hbi1; fold bi; lia)
                  ltac:(rewrite Hbi1; fold bi; lia)) as Hrest.
    rewrite Hspt1, Hac1 in Hrest.
    specialize (Hrest (add_zero_nonpositive _ Hacc) Hacc).
    destruct Hrest as (Hper & Hrest). split.
    + intros k Hk. destruct k as [|k].
      * simpl. rewrite Htick. exact Hc.
      * rewrite Hrun. apply Hper. lia.
    + destruct (ticks (S n) st1) as [stn tr].
      destruct Hrest as (Hcn & Hevn & t'' & Ht'' & Hscn & Hsptn & _ & Hmoven).
      split; [rewrite count_ev_app; lia|].
      split; [apply Forall_app; auto|].
      exists t''. split; [exact Ht''|]. split; [lia|].
      split; [exact Hsptn|].
      rewrite Hmoven, Hmove1, Hsc1.
      replace (step_count t + 1 + Z.of_nat (S n))
        with (step_count t + Z.of_nat (S (S n))) by lia.
      reflexivity.
Qed.

Lemma rounding_guard_forces_steps_witness :
  let '(stn, tr) := ticks 3 engine2_stall in
  count_ev (EvStep 0) tr = 3%nat /\
  exists t',
    tick_info stn !! 0%nat = Some t' /\
    step_count t' = 3 /\ steps_per_tick t' = F32.zero /\
    steps_to_move t' = 0.
Proof.
  pose (t := default zero_tickinfo (tick_info engine2_stall !! 0%nat)).
  assert (Hm : (0 < num_motors engine2_stall)%nat) by (vm_compute; lia).
  assert (Hsc : 0 <= step_count t) by (vm_compute; discriminate).
  assert (Hmax : steps_to_move t < 2 ^ 32) by (vm_compute; reflexivity).
  assert (Hn : Z.of_nat 3 <= steps_to_move t - step_count t)
    by (vm_compute; discriminate).
  assert (Hct0 : 0 <= current_tick engine2_stall)
    by (vm_compute; discriminate).
  assert (Hctn : current_tick engine2_stall + Z.of_nat 3 < 2 ^ 32)
    by (vm_compute; reflexivity).
  assert (Hau : accelerate_until (block_info engine2_stall)
                <= current_tick engine2_stall + 1)
    by (vm_compute; discriminate).
  assert (Hda : decelerate_after (block_info engine2_stall)
                <= current_tick engine2_stall + 1)
    by (vm_compute; discriminate).
  pose proof (rounding_guard_forces_steps engine2_stall 0 t 2
                eq_refl Hm eq_refl Hsc Hmax Hn Hct0 Hctn Hau Hda
                eq_refl eq_refl) as (_ & _ & _ & H).
  destruct (ticks 3 engine2_stall) as [stn tr].
  destruct H as (Hc & _ & t' & Ht' & Hsc' & Hspt & Hmove).
  split; [exact Hc|]. exists t'.
  split; [exact Ht'|]. split; [exact Hsc'|]. split; [exact Hspt|].
  exact Hmove.
Defined.

(** ** The completion signal and the deferred notifier *)

(** A tick raises the deferred signal once if it finds every motor done,
    and not at all otherwise. *)
Lemma TIMER0_signal (st : StepTicker) :
  count_ev EvPendSVSet (snd (TIMER0_IRQHandler st))
  = if finishes_now st then 1%nat else O.
Proof.
  destruct (finishes_now st) eqn:Hfin.
  - apply TIMER0_finishing_trace. exact Hfin.
  - pose proof (moving_tick_events st Hfin) as Hev.
    apply count_ev_absent. intros x Hx.
    rewrite Forall_forall in Hev. specialize (Hev x).
    rewrite list_elem_of_In in Hev. specialize (Hev Hx).
    destruct x; simpl in Hev; try contradiction; reflexivity.
Qed.

(** The notifier: with a positive count, one decrement and one call of
    the registered callback; with a zero count, nothing. *)
Lemma PendSV_positive (st : StepTicker) (f : Callback) :
  0 < do_move_finished st < 2 ^ 8 ->
  finished_fnc st = Some f ->
  PendSV_IRQHandler st
  = (set_do_move_finished (do_move_finished st - 1) st, [EvFinished f]).
Proof.
  intros Hd Hf. unfold PendSV_IRQHandler.
  destruct (Z.ltb_spec 0 (do_move_finished st)); [|lia].
  simpl. rewrite Hf. unfold wrap8. rewrite Z.mod_small by lia. reflexivity.
Qed.

Lemma PendSV_zero (st : StepTicker) :
  do_move_finished st <= 0 -> PendSV_IRQHandler st = (st, []).
Proof.
  intros Hd. unfold PendSV_IRQHandler.
  destruct (Z.ltb_spec 0 (do_move_finished st)); [lia|reflexivity].
Qed.

(** No statement of the tick handler writes the block-finished count. *)
Lemma TIMER0_keeps_do_move_finished (st : StepTicker) :
  do_move_finished (fst (TIMER0_IRQHandler st)) = do_move_finished st.
Proof.
  unfold TIMER0_IRQHandler.
  destruct (move_issued st); [|reflexivity]. simpl.
  destruct (l_still_moving _); [reflexivity|]. simpl.
  unfold block_finished. simpl.
  destruct (next_block st) as [b|]; [|reflexivity].
  match goal with |- context [copy_block b ?s] =>
    pose proof (copy_block_fields b s) as Hf;
    destruct (copy_block b s) as [sc evc] end.
  simpl. destruct Hf as (_ & _ & _ & _ & _ & _ & _ & Hd & _). exact Hd.
Qed.

Lemma TIMER0_calls_nothing_back (st : StepTicker) :
  count_finished (snd (TIMER0_IRQHandler st)) = O.
Proof.
  assert (Habsent : forall tr,
            (forall x, In x tr -> is_finished x = false) ->
            count_finished tr = O).
  { induction tr as [|x tr IH]; intros H; simpl; [reflexivity|].
    rewrite (H x) by (left; reflexivity).
    rewrite IH by (intros y Hy; apply H; right; exact Hy). reflexivity. }
  destruct (finishes_now st) eqn:Hfin.
  - apply finishes_now_elim in Hfin as (Hmi & Hmov).
    rewrite (TIMER0_finishing st Hmi Hmov). simpl.
    rewrite count_finished_app.
    assert (H1 : count_finished (snd (block_finished st)) = O).
    { unfold block_finished. simpl.
      destruct (next_block st) as [b|]; [|reflexivity].
      pose proof (copy_block_no_step b (set_current_tick 0 st)) as Hno.
      destruct (copy_block b (set_current_tick 0 st)) as [sc evc].
      simpl in *. rewrite count_finished_app. simpl.
      rewrite Habsent; [reflexivity|]. intros x Hx.
      destruct (Hno x Hx) as (i & d & ->). reflexivity. }
    rewrite H1. destruct (negb (unstep st =? 0)); reflexivity.
  - pose proof (moving_tick_events st Hfin) as Hev.
    apply Habsent. intros x Hx.
    rewrite Forall_forall in Hev. specialize (Hev x).
    rewrite list_elem_of_In in Hev. specialize (Hev Hx).
    destruct x; simpl in Hev; try contradiction; reflexivity.
Qed.

(** However many blocks finish, the callback runs at most as often as the
    count held when the engine was started: nothing ever adds to it. *)
Lemma callbacks_bounded_by_count (n : nat) :
  forall st : StepTicker,
    0 <= do_move_finished st < 2 ^ 8 ->
    let '(st', tr) := ticks_notified n st in
    0 <= do_move_finished st' /\
    Z.of_nat (count_finished tr) + do_move_finished st'
    <= do_move_finished st.
Proof.
  induction n as [|n IH]; intros st Hd; simpl; [lia|].
  unfold tick_and_notify.
  pose proof (TIMER0_keeps_do_move_finished st) as Hkeep.
  pose proof (TIMER0_calls_nothing_back st) as Hnone.
  destruct (TIMER0_IRQHandler st) as [st1 evs1]. simpl in Hkeep, Hnone.
  assert (Hnotify :
            let '(st2, evs2) :=
              (if raises_pendsv evs1
               then let '(st2, evs2) := PendSV_IRQHandler st1 in
                    (st2, evs1 ++ evs2)
               else (st1, evs1)) in
            0 <= do_move_finished st2 /\
            Z.of_nat (count_finished evs2) + do_move_finished st2
            <= do_move_finished st).
  { destruct (raises_pendsv evs1); [|simpl; lia].
    unfold PendSV_IRQHandler.
    destruct (Z.ltb_spec 0 (do_move_finished st1)).
    - simpl. unfold wrap8. rewrite Z.mod_small by lia.
      destruct (finished_fnc st1); simpl;
        rewrite count_finished_app, Hnone; simpl; lia.
    - rewrite count_finished_app, Hnone. simpl. lia. }
  destruct (if raises_pendsv evs1 then _ else _) as [st2 evs2].
  destruct Hnotify as (Hd2 & Hle2).
  specialize (IH st2 ltac:(lia)).
  destruct (ticks_notified n st2) as [st3 evs3].
  rewrite count_finished_app. lia.
Qed.

(** C2, as the code has it. A callback is registered and the
    block-finished count is zero; the trapezoid runs with [cruise] in the
    mailbox. Over twelve ticks both blocks finish and the deferred signal
    is raised twice, once for each; the notifier runs after each signal
    and calls the completion callback not once: the count it tests is
    still zero. *)
Theorem completion_callback_not_invoked :
  let '(st', tr) := ticks_notified 12 engine2_two_blocks in
  finished_fnc engine2_two_blocks = Some 7 /\
  count_ev (EvStep 0) tr = 6%nat /\
  count_ev EvPendSVSet tr = 2%nat /\
  count_finished tr = O /\
  do_move_finished st' = 0 /\
  move_issued st' = false.
Proof. vm_compute. repeat split. Qed.

(** ** Remarks on the arithmetic *)

(** [axis_ratio] is the product of [steps[m]] and the rounded reciprocal
    of [steps_event_count]. In single precision that is the quotient
    [steps[m] / steps_event_count] up to rounding only: for a motor that
    carries all 41 steps of a block the ratio is just below 1.0, and 5
    steps out of 6 give another ratio than the division does. *)
Remark axis_ratio_is_rounded :
  F32.mul (F32.div F32.one (F32.of_uint 41)) (F32.of_uint 41)
  = S754_finite false 16777215 (-24) /\
  F32.one = S754_finite false 8388608 (-23) /\
  F32.mul (F32.div F32.one (F32.of_uint 6)) (F32.of_uint 5)
  <> F32.div (F32.of_uint 5) (F32.of_uint 6).
Proof. vm_compute. repeat split. discriminate. Qed.

(** A block need not finish. With a rate that is not a number the guard
    does not fire and the counter never reaches 1.0: the motor of
    [degenerate] is never stepped and [still_moving] stays true for ever.
    Step-count conservation is a statement about blocks that do finish. *)
Lemma stuck_tick (st : StepTicker) :
  stuck st ->
  finishes_now st = false /\
  count_ev (EvStep 0) (snd (TIMER0_IRQHandler st)) = O /\
  stuck (fst (TIMER0_IRQHandler st)).
Proof.
  intros (Hmi & Hnum & Hau & Hda & t & Ht & Hmove & Hnae & Hnan).
  assert (Hm : (0 < num_motors st)%nat) by lia.
  assert (Hact : steps_to_move t <> 0) by lia.
  assert (Hfin : finishes_now st = false).
  { destruct (finishes_now st) eqn:Hfin; [|reflexivity].
    pose proof (finishes_now_inactive st 0 t Hfin Hm Ht). contradiction. }
  split; [exact Hfin|].
  pose proof (TIMER0_active_slot st 0 t Hmi Hm Ht Hact) as Hslot.
  cbv zeta in Hslot. set (ct := wrap32 (current_tick st + 1)) in *.
  assert (Htick : motor_tick (frequency st) (block_info st) ct t
                  = (set_counter S754_nan
                       (set_steps_per_tick S754_nan t), false)).
  { unfold motor_tick. rewrite Hnan.
    change (F32.add S754_nan (acceleration_change t)) with S754_nan.
    assert (Hev : accel_event (frequency st) (block_info st) ct
                    (set_steps_per_tick S754_nan t)
                  = set_steps_per_tick S754_nan t).
    { unfold accel_event. simpl. rewrite Hnae, Hau, Hda.
      destruct (Z.eqb_spec ct 5) as [->|]; reflexivity. }
    rewrite Hev. unfold rounding_guard. simpl.
    change (F32.leb S754_nan F32.zero) with false. cbv iota.
    unfold integrate_and_step. simpl.
    assert (Hadd : F32.add (counter t) S754_nan = S754_nan)
      by (destruct (counter t); reflexivity).
    rewrite Hadd. reflexivity. }
  rewrite Htick in Hslot.
  destruct (TIMER0_IRQHandler st) as [st' evs]. simpl in *.
  destruct Hslot as (Hslot & Hcount & _ & _ & _ & Hbi & Hnum' & Hmi' & _).
  split; [exact Hcount|].
  unfold stuck. rewrite Hbi, Hnum'.
  repeat (split; [assumption|]).
  eexists. split; [exact Hslot|]. simpl. auto.
Qed.

Lemma block_may_never_finish (n : nat) :
  keeps_moving n engine2_degenerate = true /\
  count_ev (EvStep 0) (snd (ticks n engine2_degenerate)) = O /\
  block_steps degenerate 0 = 3.
Proof.
  assert (Hstuck : stuck engine2_degenerate).
  { unfold stuck. vm_compute. repeat split. eexists. repeat split. }
  assert (Hgen : forall st, stuck st ->
            keeps_moving n st = true /\
            count_ev (EvStep 0) (snd (ticks n st)) = O).
  { induction n as [|n IH]; intros st Hst; [split; reflexivity|].
    destruct (stuck_tick st Hst) as (Hfin & Hcount & Hnext).
    specialize (IH _ Hnext). simpl. rewrite Hfin. simpl.
    destruct (TIMER0_IRQHandler st) as [st1 evs1]. simpl in *.
    destruct IH as (Hkeep & Hc). split; [exact Hkeep|].
    destruct (ticks n st1) as [st2 evs2]. simpl in *.
    rewrite count_ev_app. lia. }
  destruct (Hgen _ Hstuck) as (H1 & H2). repeat split; assumption.
Qed.

(** * Further properties of the engine *)

(** ** Steps and the unstep set *)

Lemma tick_motors_unstep (freq : F32.float) (bi : block_info_t) (ct : Z)
    (ti0 : list tickinfo_t) (u0 : Z) (n j : nat) :
  Z.testbit
    (l_unstep
       (fold_left (tick_motor freq bi ct) (seq 0 n)
          {| l_tick_info := ti0; l_unstep := u0;
             l_events := []; l_still_moving := false |}))
    (Z.of_nat j)
  = Z.testbit u0 (Z.of_nat j)
    || ((j <? n)%nat && slot_steps freq bi ct ti0 j).
Proof.
  induction n as [|n IH].
  - simpl. rewrite orb_false_r. reflexivity.
  - rewrite seq_S, fold_left_app. simpl.
    pose proof (tick_motors_loop freq bi ct ti0 u0 n) as (_ & Hslot & _).
    set (l := fold_left _ _ _) in *.
    assert (Hn : l_tick_info l !! n = ti0 !! n).
    { rewrite Hslot. destruct (Nat.ltb_spec n n); [lia|reflexivity]. }
    assert (Hold : j <> n -> (j <? S n)%nat = (j <? n)%nat).
    { intros Hne. destruct (Nat.ltb_spec j n), (Nat.ltb_spec j (S n));
        try reflexivity; lia. }
    assert (Hnn : (n <? n)%nat = false) by (apply Nat.ltb_irrefl).
    assert (Hsn : (n <? S n)%nat = true) by (apply Nat.ltb_lt; lia).
    unfold tick_motor.
    destruct (Nat.eq_dec j n) as [->|Hne].
    + rewrite Hsn. rewrite Hnn in IH. rewrite orb_false_r in IH.
      rewrite Hn. unfold slot_steps, motor_steps.
      destruct (ti0 !! n) as [t|];
        [|rewrite IH, orb_false_r; reflexivity].
      destruct (steps_to_move t =? 0);
        [rewrite IH, orb_false_r; reflexivity|].
      destruct (motor_tick freq bi ct t) as [t' stepped]. simpl.
      destruct stepped.
      * rewrite Z.setbit_eqb by lia. rewrite Z.eqb_refl.
        rewrite orb_true_r. reflexivity.
      * rewrite IH, orb_false_r. reflexivity.
    + rewrite (Hold Hne), <- IH. rewrite Hn.
      destruct (ti0 !! n) as [t|]; [|reflexivity].
      destruct (steps_to_move t =? 0); [reflexivity|].
      destruct (motor_tick freq bi ct t) as [t' stepped]. simpl.
      destruct stepped; [|reflexivity].
      rewrite Z.setbit_neq by lia. reflexivity.
Qed.

(** The step calls and the unstep set of one tick, in every case. *)
Lemma TIMER0_step_count (st : StepTicker) (j : nat) :
  count_ev (EvStep j) (snd (TIMER0_IRQHandler st))
  = if move_issued st && (j <? num_motors st)%nat
       && slot_steps (frequency st) (block_info st)
            (wrap32 (current_tick st + 1)) (tick_info st) j
    then 1%nat else O.
Proof.
  set (ct := wrap32 (current_tick st + 1)).
  destruct (move_issued st) eqn:Hmi; [|rewrite (idle_tick st Hmi); reflexivity].
  simpl. pose proof (tick_motors_spec ct st) as (_ & _ & Hev & Hmov).
  destruct (l_still_moving (tick_motors ct st)) eqn:Hstill.
  - rewrite (TIMER0_moving st Hmi Hstill). simpl. fold ct.
    rewrite count_step_restart, Hev, count_slot_events.
    destruct (j <? num_motors st)%nat; [|reflexivity]. simpl.
    unfold slot_events, slot_steps.
    destruct (tick_info st !! j); [|reflexivity].
    destruct (motor_steps _ _ _ _); simpl; rewrite ?Nat.eqb_refl; reflexivity.
  - assert (Hfin : finishes_now st = true).
    { unfold finishes_now. fold ct. rewrite Hmi, Hstill. reflexivity. }
    pose proof (TIMER0_finishing_trace st Hfin) as (_ & -> & _).
    destruct (Nat.ltb_spec j (num_motors st)); [|reflexivity]. simpl.
    unfold slot_steps. destruct (tick_info st !! j) as [t|] eqn:Ht;
      [|reflexivity].
    pose proof (finishes_now_inactive st j t Hfin ltac:(lia) Ht) as Hz.
    unfold motor_steps. rewrite Hz. reflexivity.
Qed.

Lemma block_finished_keeps (st : StepTicker) :
  unstep (fst (block_finished st)) = unstep st /\
  num_motors (fst (block_finished st)) = num_motors st /\
  motor (fst (block_finished st)) = motor st /\
  frequency (fst (block_finished st)) = frequency st /\
  current_tick (fst (block_finished st)) = 0 /\
  length (tick_info (fst (block_finished st))) = length (tick_info st) /\
  count_ev EvUnstepTimerRestart (snd (block_finished st)) = O.
Proof.
  unfold block_finished. simpl.
  destruct (next_block st) as [b|]; [|simpl; repeat split].
  pose proof (copy_block_fields b (set_current_tick 0 st)) as Hf.
  pose proof (copy_block_only_directions b (set_current_tick 0 st)
                EvUnstepTimerRestart) as Hno.
  destruct (copy_block b (set_current_tick 0 st)) as [sc evc]. simpl in *.
  destruct Hf as (Hfr & Hmo & Hun & Hnm & _ & _ & Hct & _ & _ & _ & Hlen & _).
  repeat (split; [assumption|]).
  rewrite count_ev_app, Hno by discriminate. reflexivity.
Qed.

Lemma TIMER0_unstep (st : StepTicker) :
  unstep (fst (TIMER0_IRQHandler st))
  = if move_issued st
    then l_unstep (tick_motors (wrap32 (current_tick st + 1)) st)
    else unstep st.
Proof.
  set (ct := wrap32 (current_tick st + 1)).
  destruct (move_issued st) eqn:Hmi; [|rewrite (idle_tick st Hmi); reflexivity].
  destruct (l_still_moving (tick_motors ct st)) eqn:Hstill.
  - rewrite (TIMER0_moving st Hmi Hstill). reflexivity.
  - rewrite (TIMER0_finishing st Hmi Hstill). simpl.
    pose proof (block_finished_keeps st) as (-> & _).
    unfold tick_motors in *. rewrite tick_motors_idle; [reflexivity|].
    simpl. pose proof (tick_motors_spec ct st) as (_ & _ & _ & Hmov).
    unfold tick_motors in Hmov. rewrite <- Hmov. exact Hstill.
Qed.

Lemma TIMER0_num_motors (st : StepTicker) :
  num_motors (fst (TIMER0_IRQHandler st)) = num_motors st.
Proof.
  destruct (move_issued st) eqn:Hmi; [|rewrite (idle_tick st Hmi); reflexivity].
  destruct (l_still_moving (tick_motors (wrap32 (current_tick st + 1)) st))
    eqn:Hstill.
  - rewrite (TIMER0_moving st Hmi Hstill). reflexivity.
  - rewrite (TIMER0_finishing st Hmi Hstill). simpl.
    apply block_finished_keeps.
Qed.

(** X1. Every step flags the unstep set: after a tick, the bit of a motor
    is set if it was set before or if [step()] was called on the motor
    during the tick, and clear otherwise. The tick never clears a bit. *)
Theorem steps_flag_the_unstep_set (st : StepTicker) (j : nat) :
  let '(st', evs) := TIMER0_IRQHandler st in
  Z.testbit (unstep st') (Z.of_nat j)
  = Z.testbit (unstep st) (Z.of_nat j) || stepped_in j evs.
Proof.
  pose proof (TIMER0_unstep st) as Hu.
  pose proof (TIMER0_step_count st j) as Hc.
  destruct (TIMER0_IRQHandler st) as [st' evs]. simpl in Hu, Hc.
  unfold stepped_in. rewrite Hu, Hc.
  destruct (move_issued st); simpl; [|rewrite orb_false_r; reflexivity].
  unfold tick_motors. rewrite tick_motors_unstep.
  destruct ((j <? num_motors st)%nat && slot_steps _ _ _ _ j); reflexivity.
Qed.

Lemma loop_events_only_steps (ct : Z) (st : StepTicker) (e : event) :
  (forall m, e <> EvStep m) ->
  count_ev e (l_events (tick_motors ct st)) = O.
Proof.
  intros He. pose proof (tick_motors_spec ct st) as (_ & _ & -> & _).
  apply count_ev_absent. intros x Hx.
  apply in_flat_map in Hx. destruct Hx as (i & _ & Hx).
  unfold slot_events in Hx. destruct (tick_info st !! i); [|contradiction].
  destruct (motor_steps _ _ _ _); [|contradiction].
  destruct Hx as [<-|[]]. destruct e; try reflexivity.
  simpl. destruct (Nat.eqb_spec m i); [|reflexivity].
  subst. exfalso. exact (He i eq_refl).
Qed.

(** X2. The unstep timer is restarted once on a tick of an active engine
    that leaves the unstep set non-empty, and on no other tick; so it is
    restarted on every tick that steps a motor. An idle tick never
    restarts it, pending bits or not. *)
Theorem unstep_timer_restart (st : StepTicker) :
  let '(st', evs) := TIMER0_IRQHandler st in
  count_ev EvUnstepTimerRestart evs
  = (if move_issued st && negb (unstep st' =? 0) then 1%nat else O) /\
  (forall j, stepped_in j evs = true ->
             count_ev EvUnstepTimerRestart evs = 1%nat).
Proof.
  pose proof (TIMER0_step_count st) as Hc.
  assert (Hbits : forall j,
            Z.testbit (unstep (fst (TIMER0_IRQHandler st))) (Z.of_nat j)
            = Z.testbit (unstep st) (Z.of_nat j)
              || stepped_in j (snd (TIMER0_IRQHandler st))).
  { intros j. pose proof (TIMER0_unstep st) as Hu.
    unfold stepped_in. rewrite Hu, (Hc j).
    destruct (move_issued st); simpl; [|rewrite orb_false_r; reflexivity].
    unfold tick_motors. rewrite tick_motors_unstep.
    destruct ((j <? num_motors st)%nat && slot_steps _ _ _ _ j);
      reflexivity. }
  assert (Hcount :
            count_ev EvUnstepTimerRestart (snd (TIMER0_IRQHandler st))
            = (if move_issued st
                  && negb (unstep (fst (TIMER0_IRQHandler st)) =? 0)
               then 1%nat else O)).
  { set (ct := wrap32 (current_tick st + 1)).
    destruct (move_issued st) eqn:Hmi;
      [|rewrite (idle_tick st Hmi); reflexivity].
    destruct (l_still_moving (tick_motors ct st)) eqn:Hstill.
    - rewrite (TIMER0_moving st Hmi Hstill). fold ct. simpl.
      pose proof (loop_events_only_steps ct st EvUnstepTimerRestart
                    ltac:(discriminate)) as Hno.
      destruct (l_unstep (tick_motors ct st) =? 0); simpl;
        rewrite ?count_ev_app, Hno; reflexivity.
    - rewrite (TIMER0_finishing st Hmi Hstill). simpl.
      pose proof (block_finished_keeps st) as (-> & _ & _ & _ & _ & _ & Hno).
      rewrite count_ev_app, Hno.
      destruct (unstep st =? 0); reflexivity. }
  destruct (TIMER0_IRQHandler st) as [st' evs]. simpl in *.
  split; [exact Hcount|].
  intros j Hj. rewrite Hcount.
  assert (Hmi : move_issued st = true).
  { unfold stepped_in in Hj. rewrite (Hc j) in Hj.
    destruct (move_issued st); [reflexivity|discriminate]. }
  assert (Hnz : unstep st' <> 0).
  { intros Hz. specialize (Hbits j). rewrite Hz, Hj, orb_true_r in Hbits.
    rewrite Z.testbit_0_l in Hbits. discriminate. }
  rewrite Hmi. apply Z.eqb_neq in Hnz. rewrite Hnz. reflexivity.
Qed.

(** X3. A tick followed by the expiry of the unstep timer: [unstep()] is
    called exactly once on each registered motor that was stepped on the
    tick or was already flagged, and on no other; afterwards the unstep
    set is empty. A motor that is stepped is always a registered one. *)
Theorem every_step_is_unstepped (st : StepTicker) (j : nat) :
  let '(st1, evs1) := TIMER0_IRQHandler st in
  let '(st2, evs2) := TIMER1_IRQHandler st1 in
  count_ev (EvUnstep j) evs2
  = (if (j <? num_motors st)%nat
        && (Z.testbit (unstep st) (Z.of_nat j) || stepped_in j evs1)
     then 1%nat else O) /\
  (stepped_in j evs1 = true -> count_ev (EvUnstep j) evs2 = 1%nat) /\
  unstep st2 = 0.
Proof.
  pose proof (TIMER0_unstep st) as Hu.
  pose proof (TIMER0_step_count st j) as Hc.
  pose proof (TIMER0_num_motors st) as Hnum.
  destruct (TIMER0_IRQHandler st) as [st1 evs1]. simpl in Hu, Hc, Hnum.
  assert (Hbit : Z.testbit (unstep st1) (Z.of_nat j)
                 = Z.testbit (unstep st) (Z.of_nat j) || stepped_in j evs1).
  { unfold stepped_in. rewrite Hu, Hc.
    destruct (move_issued st); simpl; [|rewrite orb_false_r; reflexivity].
    unfold tick_motors. rewrite tick_motors_unstep.
    destruct ((j <? num_motors st)%nat && slot_steps _ _ _ _ j);
      reflexivity. }
  unfold TIMER1_IRQHandler, unstep_tick. simpl.
  assert (Hcount :
            count_ev (EvUnstep j)
              (flat_map (unstep_motor (unstep st1)) (seq 0 (num_motors st1)))
            = (if (j <? num_motors st)%nat
                  && (Z.testbit (unstep st) (Z.of_nat j)
                      || stepped_in j evs1)
               then 1%nat else O)).
  { rewrite (count_ev_flat_map_seq _ _ j)
      by (intros i Hi; apply count_unstep_motor; exact Hi).
    rewrite Hnum. destruct (j <? num_motors st)%nat; [|reflexivity].
    simpl. unfold unstep_motor. rewrite Hbit.
    destruct (Z.testbit (unstep st) (Z.of_nat j) || stepped_in j evs1);
      simpl; rewrite ?Nat.eqb_refl; reflexivity. }
  split; [exact Hcount|]. split; [|reflexivity].
  intros Hj. rewrite Hcount, Hj, orb_true_r.
  unfold stepped_in in Hj. rewrite Hc in Hj.
  destruct (move_issued st); [|discriminate]. simpl in Hj.
  destruct (j <? num_motors st)%nat; [reflexivity|discriminate].
Qed.

(** ** What a tick leaves alone *)

(** The slots after a tick that does not end the block. *)
Lemma TIMER0_slots (st : StepTicker) (m : nat) :
  finishes_now st = false ->
  tick_info (fst (TIMER0_IRQHandler st)) !! m
  = if move_issued st && (m <? num_motors st)%nat
    then motor_slot (frequency st) (block_info st)
           (wrap32 (current_tick st + 1)) <$> (tick_info st !! m)
    else tick_info st !! m.
Proof.
  intros Hfin. unfold finishes_now in Hfin.
  destruct (move_issued st) eqn:Hmi; [|rewrite (idle_tick st Hmi); reflexivity].
  simpl in Hfin. apply negb_false_iff in Hfin.
  rewrite (TIMER0_moving st Hmi Hfin). simpl.
  pose proof (tick_motors_spec (wrap32 (current_tick st + 1)) st)
    as (_ & Hslot & _).
  apply Hslot.
Qed.

(** X4. A registered motor with nothing to do in the current block
    ([steps_to_move == 0]) is skipped: no tick steps it, and a tick that
    does not end the block leaves its slot exactly as it was. *)
Theorem inactive_motor_is_skipped (st : StepTicker) (m : nat)
    (t : tickinfo_t) :
  tick_info st !! m = Some t ->
  steps_to_move t = 0 ->
  let '(st', evs) := TIMER0_IRQHandler st in
  count_ev (EvStep m) evs = O /\
  (finishes_now st = false -> tick_info st' !! m = Some t).
Proof.
  intros Ht Hz.
  pose proof (TIMER0_step_count st m) as Hc.
  pose proof (TIMER0_slots st m) as Hs.
  destruct (TIMER0_IRQHandler st) as [st' evs]. simpl in Hc, Hs.
  split.
  - rewrite Hc. unfold slot_steps, motor_steps. rewrite Ht.
    destruct (Z.eqb_spec (steps_to_move t) 0); [|contradiction].
    rewrite andb_false_r. reflexivity.
  - intros Hfin. rewrite (Hs Hfin), Ht. unfold motor_slot. simpl.
    destruct (Z.eqb_spec (steps_to_move t) 0); [|contradiction].
    destruct (move_issued st && (m <? num_motors st)%nat); reflexivity.
Qed.

Lemma inactive_motor_is_skipped_witness :
  let '(st', evs) := TIMER0_IRQHandler engine2_cruise in
  count_ev (EvStep 1) evs = O /\
  tick_info st' !! 1%nat = tick_info engine2_cruise !! 1%nat.
Proof.
  pose (t := default zero_tickinfo (tick_info engine2_cruise !! 1%nat)).
  pose proof (inactive_motor_is_skipped engine2_cruise 1 t eq_refl eq_refl)
    as H.
  destruct (TIMER0_IRQHandler engine2_cruise) as [st' evs].
  destruct H as (Hc & Hs). split; [exact Hc|].
  rewrite Hs; [reflexivity|]. vm_compute. reflexivity.
Defined.

(** X5. Slots of motors that are not registered ([m >= num_motors]) are
    never read or written by the tick handler: whatever the tick does,
    also when it ends the block and converts the pending one, such a slot
    is left as it was and no step is made for it. *)
Theorem unregistered_slots_untouched (st : StepTicker) (m : nat) :
  (num_motors st <= m)%nat ->
  let '(st', evs) := TIMER0_IRQHandler st in
  tick_info st' !! m = tick_info st !! m /\
  count_ev (EvStep m) evs = O.
Proof.
  intros Hm.
  pose proof (TIMER0_step_count st m) as Hc.
  pose proof (TIMER0_slots st m) as Hs.
  destruct (finishes_now st) eqn:Hfin.
  - pose proof (TIMER0_finishing_trace st Hfin) as (Hst & Hno & _).
    destruct (TIMER0_IRQHandler st) as [st' evs]. simpl in *.
    split; [|apply Hno]. rewrite Hst. unfold block_finished. simpl.
    destruct (next_block st) as [b|]; [|reflexivity].
    pose proof (copy_block_fields b (set_current_tick 0 st)) as Hf.
    destruct (copy_block b (set_current_tick 0 st)) as [sc evc]. simpl in *.
    destruct Hf as (_ & _ & _ & _ & _ & _ & _ & _ & _ & _ & _ & Hslot & _).
    rewrite Hslot. destruct (Nat.ltb_spec m (num_motors st)); [lia|].
    reflexivity.
  - destruct (TIMER0_IRQHandler st) as [st' evs]. simpl in *.
    destruct (Nat.ltb_spec m (num_motors st)); [lia|].
    rewrite andb_false_r in Hc, Hs. simpl in Hc. split; [apply Hs|exact Hc].
    reflexivity.
Qed.

Lemma unregistered_slots_untouched_witness :
  let '(st', evs) := TIMER0_IRQHandler engine2_handover in
  tick_info st' !! 3%nat = tick_info engine2_handover !! 3%nat /\
  count_ev (EvStep 3) evs = O.
Proof.
  apply (unregistered_slots_untouched engine2_handover 3).
  vm_compute. lia.
Defined.

(** ** Block conversion *)

Lemma count_copy_events (block : Block) (ti : list tickinfo_t)
    (m n : nat) (d : bool) :
  count_ev (EvSetDirection m d) (flat_map (copy_events block ti) (seq 0 n))
  = if (m <? n)%nat
    then count_ev (EvSetDirection m d) (copy_events block ti m)
    else O.
Proof.
  apply count_ev_flat_map_seq. intros i Hi. unfold copy_events.
  destruct (ti !! i); [|reflexivity].
  destruct (block_steps block i =? 0); [reflexivity|]. simpl.
  destruct (Nat.eqb_spec m i); [congruence|reflexivity].
Qed.

(** X6. [copy_block] sets the direction pin of exactly the registered
    motors that move in the block: [set_direction] is called once, with
    the motor's bit of [direction_bits], for each registered motor with
    [steps[m] != 0], and not at all for a motor with [steps[m] == 0] or an
    unregistered one. It makes no other call. *)
Theorem copy_block_sets_directions (k_max_actuators : nat) (block : Block)
    (st : StepTicker) (m : nat) (d : bool) :
  well_formed k_max_actuators st ->
  let evs := snd (copy_block block st) in
  count_ev (EvSetDirection m d) evs
  = (if (m <? num_motors st)%nat && negb (block_steps block m =? 0)
        && Bool.eqb d (block_direction block m)
     then 1%nat else O) /\
  (forall e, In e evs -> exists i b, e = EvSetDirection i b).
Proof.
  intros (_ & Hti & Hnum) evs. subst evs.
  split; [|apply copy_block_no_step].
  pose proof (copy_block_fields block st) as Hf.
  destruct (copy_block block st) as [st' evs]. simpl.
  destruct Hf as (_ & _ & _ & _ & _ & _ & _ & _ & _ & _ & _ & _ & ->).
  rewrite count_copy_events.
  destruct (Nat.ltb_spec m (num_motors st)) as [Hm|]; [|reflexivity].
  simpl. unfold copy_events.
  destruct (lookup_lt_is_Some_2 (tick_info st) m) as [t Ht]; [lia|].
  rewrite Ht. destruct (block_steps block m =? 0); [reflexivity|]. simpl.
  rewrite Nat.eqb_refl. simpl.
  destruct (Bool.eqb d (block_direction block m)); reflexivity.
Qed.

Lemma copy_block_sets_directions_witness :
  count_ev (EvSetDirection 0 true) (snd (copy_block trapezoid engine2))
  = 1%nat /\
  count_ev (EvSetDirection 1 false) (snd (copy_block trapezoid engine2))
  = 1%nat /\
  count_ev (EvSetDirection 1 false) (snd (copy_block cruise engine2)) = O.
Proof.
  assert (Hwf : well_formed 5 engine2) by solve_well_formed.
  split; [|split].
  - exact (proj1 (copy_block_sets_directions 5 trapezoid engine2 0 true Hwf)).
  - exact (proj1 (copy_block_sets_directions 5 trapezoid engine2 1 false Hwf)).
  - exact (proj1 (copy_block_sets_directions 5 cruise engine2 1 false Hwf)).
Defined.

(** X7. For a registered motor that does not move in the block
    ([steps[m] == 0]) [copy_block] only stores [steps_to_move = 0]: the
    rate, counter, ratio, acceleration, step count and phase switch of the
    slot keep the values the previous block left there. *)
Theorem copy_block_idle_slot (k_max_actuators : nat) (block : Block)
    (st : StepTicker) (m : nat) :
  well_formed k_max_actuators st ->
  (m < num_motors st)%nat ->
  block_steps block m = 0 ->
  exists t,
    tick_info st !! m = Some t /\
    tick_info (fst (copy_block block st)) !! m
    = Some (set_steps_to_move 0 t).
Proof.
  intros (_ & Hti & Hnum) Hm Hz.
  pose proof (copy_block_fields block st) as Hf.
  destruct (copy_block block st) as [st' evs]. simpl.
  destruct Hf as (_ & _ & _ & _ & _ & _ & _ & _ & _ & _ & _ & Hslot & _).
  destruct (lookup_lt_is_Some_2 (tick_info st) m) as [t Ht]; [lia|].
  exists t. split; [exact Ht|]. rewrite Hslot.
  destruct (Nat.ltb_spec m (num_motors st)); [|lia].
  rewrite Ht. simpl. unfold copy_slot. rewrite Hz. reflexivity.
Qed.

Lemma copy_block_idle_slot_witness :
  exists t,
    tick_info engine2_done !! 1%nat = Some t /\
    step_count t = 2 /\
    tick_info (fst (copy_block cruise engine2_done)) !! 1%nat
    = Some (set_steps_to_move 0 t).
Proof.
  destruct (copy_block_idle_slot 5 cruise engine2_done 1)
    as (t & Ht & Ht').
  - unfold well_formed. vm_compute. repeat split; lia.
  - vm_compute. lia.
  - reflexivity.
  - exists t. split; [exact Ht|]. split; [|exact Ht'].
    assert (Hs : step_count <$> tick_info engine2_done !! 1%nat = Some 2)
      by (vm_compute; reflexivity).
    rewrite Ht in Hs. simpl in Hs. congruence.
Defined.

(** X8. The slot of a motor that moves in the block is rebuilt from the
    block and the tick frequency alone: whatever the slot held before, in
    whatever engine state, the converted slot is the same. Nothing of the
    previous block leaks into an active slot. *)
Theorem copy_block_forgets_previous_slot (k_max_actuators : nat)
    (block : Block) (st1 st2 : StepTicker) (m : nat) :
  well_formed k_max_actuators st1 ->
  well_formed k_max_actuators st2 ->
  frequency st1 = frequency st2 ->
  (m < num_motors st1)%nat ->
  (m < num_motors st2)%nat ->
  block_steps block m <> 0 ->
  tick_info (fst (copy_block block st1)) !! m
  = tick_info (fst (copy_block block st2)) !! m.
Proof.
  intros (_ & Hti1 & Hnum1) (_ & Hti2 & Hnum2) Hfreq Hm1 Hm2 Hnz.
  pose proof (copy_block_fields block st1) as Hf1.
  pose proof (copy_block_fields block st2) as Hf2.
  destruct (copy_block block st1) as [s1 e1].
  destruct (copy_block block st2) as [s2 e2]. simpl.
  destruct Hf1 as (_ & _ & _ & _ & _ & _ & _ & _ & _ & _ & _ & Hs1 & _).
  destruct Hf2 as (_ & _ & _ & _ & _ & _ & _ & _ & _ & _ & _ & Hs2 & _).
  rewrite Hs1, Hs2.
  destruct (Nat.ltb_spec m (num_motors st1)); [|lia].
  destruct (Nat.ltb_spec m (num_motors st2)); [|lia].
  destruct (lookup_lt_is_Some_2 (tick_info st1) m) as [t1 Ht1]; [lia|].
  destruct (lookup_lt_is_Some_2 (tick_info st2) m) as [t2 Ht2]; [lia|].
  rewrite Ht1, Ht2, Hfreq. simpl. f_equal.
  unfold copy_slot. apply Z.eqb_neq in Hnz. rewrite Hnz.
  unfold convert_motor, classify_phase.
  repeat match goal with |- context [if ?c then _ else _] =>
    destruct c end; reflexivity.
Qed.

Lemma copy_block_forgets_previous_slot_witness :
  tick_info (fst (copy_block trapezoid engine2)) !! 0%nat
  = tick_info (fst (copy_block trapezoid engine2_done)) !! 0%nat.
Proof.
  apply (copy_block_forgets_previous_slot 5 trapezoid engine2 engine2_done 0).
  - solve_well_formed.
  - unfold well_formed. vm_compute. repeat split; lia.
  - vm_compute. reflexivity.
  - vm_compute. lia.
  - vm_compute. lia.
  - vm_compute. discriminate.
Defined.

(** X9. A block that moves no registered motor is over at once: right
    after its conversion every slot is inactive, so the first tick finds
    [still_moving] false, steps nothing and raises the completion signal
    once. *)
Theorem empty_block_finishes_at_once (k_max_actuators : nat)
    (block : Block) (st : StepTicker) :
  well_formed k_max_actuators st ->
  (forall m, (m < num_motors st)%nat -> block_steps block m = 0) ->
  let st0 := fst (copy_block block st) in
  snd (copy_block block st) = [] /\
  finishes_now st0 = true /\
  (forall m, count_ev (EvStep m) (snd (TIMER0_IRQHandler st0)) = O) /\
  count_ev EvPendSVSet (snd (TIMER0_IRQHandler st0)) = 1%nat.
Proof.
  intros (_ & Hti & Hnum) Hzero st0.
  pose proof (copy_block_fields block st) as Hf. subst st0.
  destruct (copy_block block st) as [st0 evs]. simpl.
  destruct Hf as (_ & _ & _ & Hnm & Hmi & _ & _ & _ & _ & _ & _ & Hslot & Hev).
  assert (Hevs : evs = []).
  { rewrite Hev. clear Hev.
    assert (Hgen : forall n, (n <= num_motors st)%nat ->
              flat_map (copy_events block (tick_info st)) (seq 0 n) = []).
    { induction n as [|n IH]; intros Hn; [reflexivity|].
      rewrite seq_S, flat_map_app, IH by lia. simpl.
      unfold copy_events. destruct (tick_info st !! n); [|reflexivity].
      rewrite (Hzero n) by lia. reflexivity. }
    apply Hgen. lia. }
  assert (Hfin : finishes_now st0 = true).
  { unfold finishes_now. rewrite Hmi. simpl. apply negb_true_iff.
    pose proof (tick_motors_spec (wrap32 (current_tick st0 + 1)) st0)
      as (_ & _ & _ & ->).
    destruct (existsb _ _) eqn:Hex; [|reflexivity].
    apply existsb_exists in Hex. destruct Hex as (m & Hin & Hact).
    apply in_seq in Hin. unfold slot_active in Hact.
    rewrite Hslot in Hact.
    destruct (Nat.ltb_spec m (num_motors st)); [|lia].
    destruct (tick_info st !! m) as [t|]; [|discriminate]. simpl in Hact.
    unfold copy_slot in Hact. rewrite (Hzero m) in Hact by lia.
    simpl in Hact. discriminate. }
  split; [exact Hevs|]. split; [exact Hfin|].
  pose proof (TIMER0_finishing_trace st0 Hfin) as (_ & Hno & Hsig).
  split; assumption.
Qed.

Lemma empty_block_finishes_at_once_witness :
  finishes_now (fst (copy_block empty_block engine2)) = true /\
  count_ev EvPendSVSet
    (snd (TIMER0_IRQHandler (fst (copy_block empty_block engine2))))
  = 1%nat.
Proof.
  destruct (empty_block_finishes_at_once 5 empty_block engine2)
    as (_ & Hfin & _ & Hsig).
  - solve_well_formed.
  - intros m Hm. change (num_motors engine2) with 2%nat in Hm.
    destruct m as [|[|m]]; [reflexivity|reflexivity|lia].
  - split; assumption.
Defined.

(** ** While a block runs *)

(** X10. No overshoot, at any time: from the activation of a block up to
    any tick before its end, [step_count] of a motor that moves in the
    block is the number of [step()] calls made on it so far, that number
    never exceeds [steps[m]], and the motor is retired
    ([steps_to_move == 0]) exactly when the number has reached
    [steps[m]]; until then [steps_to_move] holds [steps[m]]. *)
Theorem never_more_steps_than_commanded (k_max_actuators : nat)
    (st : StepTicker) (block : Block) (pending : option Block) (m n : nat) :
  well_formed k_max_actuators st ->
  (m < num_motors st)%nat ->
  0 < block_steps block m < 2 ^ 32 ->
  let st0 := set_next_block pending (fst (copy_block block st)) in
  keeps_moving n st0 = true ->
  let '(stn, tr) := ticks n st0 in
  exists t,
    tick_info stn !! m = Some t /\
    step_count t = Z.of_nat (count_ev (EvStep m) tr) /\
    Z.of_nat (count_ev (EvStep m) tr) <= block_steps block m /\
    (steps_to_move t = 0 <->
     Z.of_nat (count_ev (EvStep m) tr) = block_steps block m) /\
    (steps_to_move t <> 0 -> steps_to_move t = block_steps block m).
Proof.
  intros (_ & Hti & Hnum) Hm Hsteps st0 Hkeep.
  pose proof (copy_block_fields block st) as Hf.
  destruct (copy_block block st) as [sc evc] eqn:Hcopy.
  destruct Hf as (_ & _ & _ & Hnm & _ & _ & _ & _ & _ & _ & _ & Hslot & _).
  specialize (Hslot m).
  destruct (Nat.ltb_spec m (num_motors st)) as [_|]; [|lia].
  destruct (lookup_lt_is_Some_2 (tick_info st) m) as [t0 Ht0]; [lia|].
  rewrite Ht0 in Hslot. simpl in Hslot.
  assert (Hp0 : slot_progress (block_steps block m) 0
                  (copy_slot block (frequency st) (block_inv block) m t0)).
  { unfold copy_slot.
    destruct (Z.eqb_spec (block_steps block m) 0); [lia|].
    unfold convert_motor, classify_phase, slot_progress.
    repeat match goal with |- context [if ?c then _ else _] =>
      destruct c end; simpl; (split; [reflexivity|left; lia]). }
  assert (Hm0 : (m < num_motors st0)%nat) by (subst st0; simpl; lia).
  assert (Ht0' : tick_info st0 !! m
                 = Some (copy_slot block (frequency st) (block_inv block)
                           m t0)) by (subst st0; simpl; exact Hslot).
  pose proof (ticks_progress m (block_steps block m) n (proj2 Hsteps)
                st0 0%nat _ Hm0 Ht0' Hp0 Hkeep) as Hrun.
  destruct (ticks n st0) as [stn tr].
  destruct Hrun as (_ & _ & t & Ht & Hk & Hcase). simpl in Hk, Hcase.
  exists t. split; [exact Ht|]. split; [exact Hk|].
  destruct Hcase as [(Hmove & Hlt)|(Hmove & Heq)].
  - split; [lia|]. split; [split; lia|]. intros _. exact Hmove.
  - split; [lia|]. split; [split; [intros _; exact Heq|intros _; exact Hmove]|].
    intros Hnz. contradiction.
Qed.

Lemma never_more_steps_than_commanded_witness :
  let st0 := set_next_block None (fst (copy_block trapezoid engine2)) in
  let '(stn, tr) := ticks 4 st0 in
  exists t,
    tick_info stn !! 0%nat = Some t /\
    step_count t = 2 /\
    count_ev (EvStep 0) tr = 2%nat /\
    steps_to_move t = 4.
Proof.
  pose proof (never_more_steps_than_commanded 5 engine2 trapezoid None 0 4)
    as H.
  cbv zeta in *.
  assert (Hcount :
            count_ev (EvStep 0)
              (snd (ticks 4 (set_next_block None
                               (fst (copy_block trapezoid engine2)))))
            = 2%nat) by (vm_compute; reflexivity).
  destruct (ticks 4 (set_next_block None (fst (copy_block trapezoid engine2))))
    as [stn tr].
  simpl in Hcount.
  destruct H as (t & Ht & Hsc & Hle & Hiff & Hmove).
  - solve_well_formed.
  - simpl. lia.
  - change (block_steps trapezoid 0) with 4. lia.
  - vm_compute. reflexivity.
  - exists t. split; [exact Ht|]. rewrite Hcount in *.
    split; [exact Hsc|]. split; [reflexivity|].
    apply Hmove. intros Hz. apply Hiff in Hz.
    change (block_steps trapezoid 0) with 4 in Hz. simpl in Hz. lia.
Defined.

(** ** The completion signal *)

(** X11. The tick handler raises the deferred completion signal
    ([SCB->ICSR]) exactly once on a tick that finds every motor done, and
    never on any other tick: not while a motor is active, not while the
    engine is idle. It never calls the completion callback itself. *)
Theorem completion_signal_once_per_finish (st : StepTicker) :
  let evs := snd (TIMER0_IRQHandler st) in
  count_ev EvPendSVSet evs = (if finishes_now st then 1%nat else O) /\
  count_finished evs = O.
Proof.
  split; [apply TIMER0_signal|apply TIMER0_calls_nothing_back].
Qed.

(** X12. The callback can run only as often as the block-finished count
    allows, and the tick handler never adds to that count: over any number
    of ticks, each followed by the deferred notifier when it raised the
    signal, the number of callbacks plus the count that is left does not
    exceed the count at the start. *)
Theorem callbacks_limited_by_initial_count (n : nat) (st : StepTicker) :
  0 <= do_move_finished st < 2 ^ 8 ->
  let '(st', tr) := ticks_notified n st in
  0 <= do_move_finished st' /\
  Z.of_nat (count_finished tr) + do_move_finished st'
  <= do_move_finished st /\
  do_move_finished (fst (TIMER0_IRQHandler st)) = do_move_finished st.
Proof.
  intros Hd.
  pose proof (callbacks_bounded_by_count n st Hd) as H.
  destruct (ticks_notified n st) as [st' tr].
  destruct H as (H1 & H2). split; [exact H1|]. split; [exact H2|].
  apply TIMER0_keeps_do_move_finished.
Qed.

Lemma callbacks_limited_by_initial_count_witness :
  let '(st', tr) := ticks_notified 12 engine2_counted in
  0 <= do_move_finished st' /\
  Z.of_nat (count_finished tr) + do_move_finished st' <= 1 /\
  do_move_finished (fst (TIMER0_IRQHandler engine2_counted)) = 1.
Proof.
  apply (callbacks_limited_by_initial_count 12 engine2_counted).
  vm_compute. split; [discriminate|reflexivity].
Defined.

(** ** Registering several motors *)

Lemma register_motor_in_range (k_max_actuators : nat) (m : StepperMotor)
    (st : StepTicker) :
  well_formed k_max_actuators st ->
  (num_motors st < k_max_actuators)%nat ->
  register_motor k_max_actuators m st
  = (set_num_motors (S (num_motors st))
       (set_motor (<[num_motors st := m]> (motor st)) st),
     Z.of_nat (num_motors st), []).
Proof.
  intros _ Hfree. unfold register_motor. simpl.
  destruct (decide (num_motors st < k_max_actuators)%nat); [|contradiction].
  repeat f_equal. lia.
Qed.

(** X13. Registering a list of motors that still fits the table hands
    out consecutive indices starting at the current [num_motors], stores
    nothing outside the table, and afterwards looking up a returned index
    in the table gives the handle registered under it; the entries of the
    motors registered before are kept, and the engine's run-time state is
    not touched. *)
Theorem register_motors_dense (k_max_actuators : nat)
    (ms : list StepperMotor) :
  forall st : StepTicker,
    well_formed k_max_actuators st ->
    (num_motors st + length ms <= k_max_actuators)%nat ->
    let '(st', indices, evs) := register_motors k_max_actuators ms st in
    indices = map Z.of_nat (seq (num_motors st) (length ms)) /\
    evs = [] /\
    num_motors st' = (num_motors st + length ms)%nat /\
    (forall i h, ms !! i = Some h ->
                 motor st' !! (num_motors st + i)%nat = Some h) /\
    (forall j, (j < num_motors st)%nat -> motor st' !! j = motor st !! j) /\
    well_formed k_max_actuators st' /\
    tick_info st' = tick_info st /\ move_issued st' = move_issued st /\
    unstep st' = unstep st /\ next_block st' = next_block st.
Proof.
  induction ms as [|m ms IH]; intros st Hwf Hfit.
  - simpl. rewrite Nat.add_0_r. repeat split; try assumption.
    + intros i h Hi. rewrite lookup_nil in Hi. discriminate.
    + apply Hwf.
    + apply Hwf.
    + apply Hwf.
  - simpl in Hfit. cbn [register_motors].
    rewrite (register_motor_in_range k_max_actuators m st Hwf) by lia.
    set (st1 := set_num_motors (S (num_motors st))
                  (set_motor (<[num_motors st := m]> (motor st)) st)).
    assert (Hwf1 : well_formed k_max_actuators st1).
    { destruct Hwf as (Hmo & Hti & Hnum). unfold well_formed, st1. simpl.
      rewrite length_insert. repeat split; [assumption|assumption|lia]. }
    assert (Hn1 : num_motors st1 = S (num_motors st)) by reflexivity.
    specialize (IH st1 Hwf1). rewrite Hn1 in IH.
    specialize (IH ltac:(lia)).
    destruct (register_motors k_max_actuators ms st1) as [[st' idx] evs].
    destruct IH as (Hidx & Hevs & Hnum' & Hnew & Hold & Hwf' &
                    Hti' & Hmi' & Hun' & Hnb').
    split; [simpl; rewrite Hidx; reflexivity|].
    split; [rewrite Hevs; reflexivity|].
    split; [simpl; lia|].
    split; [|split; [|split; [exact Hwf'|];
                      split; [exact Hti'|]; split; [exact Hmi'|];
                      split; [exact Hun'|exact Hnb']]].
    + intros i h Hi. destruct i as [|i].
      * simpl in Hi. injection Hi as <-. rewrite Nat.add_0_r.
        rewrite Hold by lia. unfold st1. simpl.
        apply list_lookup_insert_eq. destruct Hwf as (-> & _). lia.
      * simpl in Hi. replace (num_motors st + S i)%nat
          with (S (num_motors st) + i)%nat by lia.
        apply Hnew. exact Hi.
    + intros j Hj. rewrite Hold by lia. unfold st1. simpl.
      apply list_lookup_insert_ne. lia.
Qed.

Lemma register_motors_dense_witness :
  let '(st', indices, evs) := register_motors 5 [102; 103] engine2 in
  indices = [2; 3] /\
  evs = [] /\
  num_motors st' = 4%nat /\
  motor st' !! 2%nat = Some 102 /\
  motor st' !! 3%nat = Some 103 /\
  motor st' !! 0%nat = motor engine2 !! 0%nat.
Proof.
  pose proof (register_motors_dense 5 [102; 103] engine2) as H.
  destruct (register_motors 5 [102; 103] engine2) as [[st' idx] evs].
  destruct H as (Hidx & Hevs & Hnum & Hnew & Hold & _).
  - solve_well_formed.
  - simpl. lia.
  - split; [exact Hidx|]. split; [exact Hevs|]. split; [exact Hnum|].
    split; [exact (Hnew 0%nat 102 eq_refl)|].
    split; [exact (Hnew 1%nat 103 eq_refl)|].
    apply Hold. simpl. lia.
Defined.

(** ** The rate and the phase between switches *)

(** X14. Phase data changes only on the armed tick. On a tick other than
    [next_accel_event], an active motor keeps its [acceleration_change]
    and its [next_accel_event]; its rate becomes the old rate plus
    [acceleration_change], clamped to 0 by the guard when that is zero or
    below. On every tick, armed or not, [axis_ratio] is kept. *)
Theorem phase_changes_only_on_event (st : StepTicker) (m : nat)
    (t : tickinfo_t) :
  move_issued st = true ->
  (m < num_motors st)%nat ->
  tick_info st !! m = Some t ->
  steps_to_move t <> 0 ->
  exists t',
    tick_info (fst (TIMER0_IRQHandler st)) !! m = Some t' /\
    axis_ratio t' = axis_ratio t /\
    (wrap32 (current_tick st + 1) <> next_accel_event t ->
     acceleration_change t' = acceleration_change t /\
     next_accel_event t' = next_accel_event t /\
     let rate := F32.add (steps_per_tick t) (acceleration_change t) in
     steps_per_tick t'
     = (if F32.leb rate F32.zero then F32.zero else rate)).
Proof.
  intros Hmi Hm Ht Hact.
  pose proof (TIMER0_active_slot st m t Hmi Hm Ht Hact) as Hslot.
  cbv zeta in Hslot.
  destruct (TIMER0_IRQHandler st) as [st' evs]. simpl.
  destruct Hslot as (Hslot & _).
  eexists. split; [exact Hslot|].
  pose proof (motor_tick_after_event (frequency st) (block_info st)
                (wrap32 (current_tick st + 1)) t) as (Hac & Hnae & Har & Hspt).
  split; [exact Har|].
  intros Hne. rewrite Hac, Hnae, Hspt.
  unfold accel_event. simpl.
  apply Z.eqb_neq in Hne. rewrite Hne. simpl. repeat split.
Qed.

Lemma phase_changes_only_on_event_witness :
  exists t',
    tick_info (fst (TIMER0_IRQHandler engine2_trapezoid)) !! 0%nat = Some t' /\
    acceleration_change t' = quarter /\
    next_accel_event t' = 2 /\
    steps_per_tick t' = F32.div (F32.of_uint 1) (F32.of_uint 2).
Proof.
  pose (t := default zero_tickinfo (tick_info engine2_trapezoid !! 0%nat)).
  assert (Hm : (0 < num_motors engine2_trapezoid)%nat) by (vm_compute; lia).
  assert (Hact : steps_to_move t <> 0) by (vm_compute; discriminate).
  destruct (phase_changes_only_on_event engine2_trapezoid 0 t
              eq_refl Hm eq_refl Hact) as (t' & Ht' & _ & H).
  destruct H as (Hac & Hnae & Hspt); [vm_compute; discriminate|].
  exists t'. split; [exact Ht'|].
  split; [rewrite Hac; vm_compute; reflexivity|].
  split; [rewrite Hnae; reflexivity|].
  rewrite Hspt. vm_compute. reflexivity.
Defined.

(** X15. After any tick the rate of a motor that was active on it is
    never below zero: if it compares [<= 0] at all, it is exactly the
    positive zero the guard stored. *)
Theorem rate_never_negative (st : StepTicker) (m : nat) (t : tickinfo_t) :
  move_issued st = true ->
  (m < num_motors st)%nat ->
  tick_info st !! m = Some t ->
  steps_to_move t <> 0 ->
  exists t',
    tick_info (fst (TIMER0_IRQHandler st)) !! m = Some t' /\
    (F32.leb (steps_per_tick t') F32.zero = true ->
     steps_per_tick t' = F32.zero).
Proof.
  intros Hmi Hm Ht Hact.
  pose proof (TIMER0_active_slot st m t Hmi Hm Ht Hact) as Hslot.
  cbv zeta in Hslot.
  destruct (TIMER0_IRQHandler st) as [st' evs]. simpl.
  destruct Hslot as (Hslot & _).
  eexists. split; [exact Hslot|].
  pose proof (motor_tick_after_event (frequency st) (block_info st)
                (wrap32 (current_tick st + 1)) t) as (_ & _ & _ & Hspt).
  rewrite Hspt.
  destruct (F32.leb (steps_per_tick (accel_event _ _ _ _)) F32.zero) eqn:Hle.
  - reflexivity.
  - intros Hle'. rewrite Hle in Hle'. discriminate.
Qed.

Lemma rate_never_negative_witness :
  exists t',
    tick_info (fst (TIMER0_IRQHandler engine2_stall)) !! 0%nat = Some t' /\
    steps_per_tick t' = F32.zero.
Proof.
  pose (t := default zero_tickinfo (tick_info engine2_stall !! 0%nat)).
  assert (Hm : (0 < num_motors engine2_stall)%nat) by (vm_compute; lia).
  assert (Hact : steps_to_move t <> 0) by (vm_compute; discriminate).
  destruct (rate_never_negative engine2_stall 0 t eq_refl Hm eq_refl Hact)
    as (t' & Ht' & Hzero).
  exists t'. split; [exact Ht'|]. apply Hzero.
  assert (Hs : F32.leb
                 (default F32.one
                    (steps_per_tick
                       <$> tick_info (fst (TIMER0_IRQHandler engine2_stall))
                           !! 0%nat)) F32.zero = true)
    by (vm_compute; reflexivity).
  rewrite Ht' in Hs. exact Hs.
Defined.

(** ** Invariants of the engine state *)

Lemma TIMER0_shape (st : StepTicker) :
  motor (fst (TIMER0_IRQHandler st)) = motor st /\
  length (tick_info (fst (TIMER0_IRQHandler st))) = length (tick_info st) /\
  num_motors (fst (TIMER0_IRQHandler st)) = num_motors st /\
  frequency (fst (TIMER0_IRQHandler st)) = frequency st.
Proof.
  destruct (move_issued st) eqn:Hmi;
    [|rewrite (idle_tick st Hmi); repeat split].
  destruct (l_still_moving (tick_motors (wrap32 (current_tick st + 1)) st))
    eqn:Hstill.
  - rewrite (TIMER0_moving st Hmi Hstill). simpl.
    pose proof (tick_motors_spec (wrap32 (current_tick st + 1)) st)
      as (Hlen & _).
    repeat split. exact Hlen.
  - rewrite (TIMER0_finishing st Hmi Hstill). simpl.
    pose proof (block_finished_keeps st) as (_ & H1 & H2 & H3 & _ & H4 & _).
    repeat split; assumption.
Qed.

(** X16. The shape of the engine is kept by everything that runs after
    set-up: the tick handler, the unstep expiry, the deferred notifier and
    the conversion of a block change neither the motor table, nor the
    number of registered motors, nor the size of the slot table. *)
Theorem handlers_keep_well_formed (k_max_actuators : nat) (st : StepTicker)
    (block : Block) :
  well_formed k_max_actuators st ->
  well_formed k_max_actuators (fst (TIMER0_IRQHandler st)) /\
  well_formed k_max_actuators (fst (TIMER1_IRQHandler st)) /\
  well_formed k_max_actuators (fst (PendSV_IRQHandler st)) /\
  well_formed k_max_actuators (fst (copy_block block st)) /\
  motor (fst (TIMER0_IRQHandler st)) = motor st /\
  num_motors (fst (TIMER0_IRQHandler st)) = num_motors st /\
  motor (fst (copy_block block st)) = motor st /\
  num_motors (fst (copy_block block st)) = num_motors st.
Proof.
  intros (Hmo & Hti & Hnum).
  pose proof (TIMER0_shape st) as (T1 & T2 & T3 & _).
  pose proof (copy_block_fields block st) as Hf.
  destruct (copy_block block st) as [sc evc]. simpl.
  destruct Hf as (_ & C1 & _ & C2 & _ & _ & _ & _ & _ & _ & C3 & _).
  unfold well_formed. rewrite T1, T2, T3, C1, C2, C3.
  repeat split; try assumption.
  all: unfold PendSV_IRQHandler;
    destruct (0 <? do_move_finished st); simpl;
    try destruct (finished_fnc st); simpl; assumption.
Qed.

Lemma handlers_keep_well_formed_witness :
  well_formed 5 (fst (TIMER0_IRQHandler engine2_handover)) /\
  num_motors (fst (TIMER0_IRQHandler engine2_handover)) = 2%nat.
Proof.
  destruct (handlers_keep_well_formed 5 engine2_handover cruise)
    as (Hwf & _ & _ & _ & _ & Hnum & _).
  - unfold well_formed. vm_compute. repeat split; lia.
  - split; [exact Hwf|]. rewrite Hnum. vm_compute. reflexivity.
Defined.

(** X17. The tick counter is zero whenever the engine is idle: if that
    holds to begin with, it holds after any number of ticks. So a block
    that is started on an idle engine begins at tick 0, as a block taken
    from the mailbox does. After the tick that ends a block the counter
    is 0 in either case. *)
Theorem idle_engine_has_tick_zero (n : nat) :
  forall st : StepTicker,
    (move_issued st = false -> current_tick st = 0) ->
    (move_issued (fst (ticks n st)) = false ->
     current_tick (fst (ticks n st)) = 0) /\
    (finishes_now st = true ->
     current_tick (fst (TIMER0_IRQHandler st)) = 0).
Proof.
  assert (Hfinish : forall st, finishes_now st = true ->
            current_tick (fst (TIMER0_IRQHandler st)) = 0).
  { intros st Hfin.
    pose proof (TIMER0_finishing_trace st Hfin) as (-> & _).
    apply block_finished_keeps. }
  assert (Hstep : forall st,
            (move_issued st = false -> current_tick st = 0) ->
            move_issued (fst (TIMER0_IRQHandler st)) = false ->
            current_tick (fst (TIMER0_IRQHandler st)) = 0).
  { intros st Hinv Hidle.
    destruct (finishes_now st) eqn:Hfin; [apply Hfinish; exact Hfin|].
    destruct (move_issued st) eqn:Hmi.
    - unfold finishes_now in Hfin. rewrite Hmi in Hfin. simpl in Hfin.
      apply negb_false_iff in Hfin.
      rewrite (TIMER0_moving st Hmi Hfin) in Hidle. simpl in Hidle.
      congruence.
    - rewrite (idle_tick st Hmi). simpl. apply Hinv. reflexivity. }
  induction n as [|n IH]; intros st Hinv.
  - simpl. split; [exact Hinv|apply Hfinish].
  - split; [|apply Hfinish].
    rewrite ticks_S_fst. apply IH. apply Hstep. exact Hinv.
Qed.

Lemma idle_engine_has_tick_zero_witness :
  move_issued (fst (ticks 7 engine2_trapezoid)) = false /\
  current_tick (fst (ticks 7 engine2_trapezoid)) = 0.
Proof.
  assert (Hidle : move_issued (fst (ticks 7 engine2_trapezoid)) = false)
    by (vm_compute; reflexivity).
  split; [exact Hidle|].
  apply (idle_engine_has_tick_zero 7 engine2_trapezoid); [|exact Hidle].
  intros H. vm_compute in H. discriminate.
Defined.

(** ** The phases of a block *)

Lemma phase_at_start (block : Block) (freq inv : F32.float) (steps : Z)
    (t : tickinfo_t) :
  0 <= b_accelerate_until block <= b_decelerate_after block ->
  let t' := convert_motor block freq inv steps t in
  (acceleration_change t', next_accel_event t')
  = phase_at block (F32.mul inv (F32.of_uint steps)) 0 /\
  axis_ratio t' = F32.mul inv (F32.of_uint steps).
Proof.
  intros Hb. unfold convert_motor, classify_phase, phase_at.
  destruct (Z.eqb_spec (b_accelerate_until block) 0) as [Hau|Hau]; simpl.
  - destruct (Z.eqb_spec (b_decelerate_after block) 0); simpl;
      [split; reflexivity|].
    destruct (Z.eqb_spec (b_decelerate_after block)
                (b_total_move_ticks block)); simpl; [split; reflexivity|].
    destruct (Z.ltb_spec 0 (b_decelerate_after block)); [|lia].
    split; reflexivity.
  - destruct (Z.ltb_spec 0 (b_accelerate_until block)); [|lia].
    split; reflexivity.
Qed.

Lemma accel_event_phase (freq : F32.float) (bi : block_info_t) (ct : Z)
    (t : tickinfo_t) :
  acceleration_change (accel_event freq bi ct t)
  = (if ct =? next_accel_event t then
       if ct =? decelerate_after bi then
         F32.mul (F32.neg (deceleration_per_tick bi)) (axis_ratio t)
       else if ct =? accelerate_until bi then F32.zero
       else acceleration_change t
     else acceleration_change t) /\
  next_accel_event (accel_event freq bi ct t)
  = (if (ct =? next_accel_event t) && (ct =? accelerate_until bi)
        && (decelerate_after bi <? total_move_ticks bi)
     then decelerate_after bi else next_accel_event t).
Proof.
  unfold accel_event.
  destruct (ct =? next_accel_event t); [|split; reflexivity].
  destruct (ct =? accelerate_until bi);
    destruct (decelerate_after bi <? total_move_ticks bi);
    destruct (ct =? decelerate_after bi); split; reflexivity.
Qed.

Lemma phase_at_step (block : Block) (freq : F32.float) (n : Z)
    (t : tickinfo_t) :
  0 <= b_accelerate_until block <= b_decelerate_after block ->
  b_decelerate_after block <= b_total_move_ticks block < 2 ^ 32 ->
  0 <= n -> n + 1 < 2 ^ 32 ->
  let bi := {| accelerate_until := b_accelerate_until block;
               decelerate_after := b_decelerate_after block;
               maximum_rate := b_maximum_rate block;
               deceleration_per_tick := b_deceleration_per_tick block;
               total_move_ticks := b_total_move_ticks block |} in
  (acceleration_change t, next_accel_event t)
  = phase_at block (axis_ratio t) n ->
  let t' := fst (motor_tick freq bi (n + 1) t) in
  (acceleration_change t', next_accel_event t')
  = phase_at block (axis_ratio t) (n + 1) /\
  axis_ratio t' = axis_ratio t.
Proof.
  intros Hb1 Hb2 Hn0 Hn1 bi Hphase t'.
  pose proof (motor_tick_after_event freq bi (n + 1) t)
    as (Hac & Hnae & Har & _).
  fold t' in Hac, Hnae, Har. split; [|exact Har].
  rewrite Hac, Hnae. clear Hac Hnae Har t'.
  match goal with |- context [accel_event freq bi (n + 1) ?t0] =>
    pose proof (accel_event_phase freq bi (n + 1) t0) as (-> & ->) end.
  simpl.
  assert (Hac : acceleration_change t
                = fst (phase_at block (axis_ratio t) n))
    by (rewrite <- Hphase; reflexivity).
  assert (Hnae : next_accel_event t
                 = snd (phase_at block (axis_ratio t) n))
    by (rewrite <- Hphase; reflexivity).
  clear Hphase.
  assert (Hw : 0 <= wrap32 (b_total_move_ticks block + 1) < 2 ^ 32)
    by (unfold wrap32; apply Z.mod_pos_bound; lia).
  assert (Hw' : b_total_move_ticks block + 1 < 2 ^ 32 ->
                wrap32 (b_total_move_ticks block + 1)
                = b_total_move_ticks block + 1)
    by (intros; unfold wrap32; apply Z.mod_small; lia).
  assert (Hw'' : b_total_move_ticks block + 1 = 2 ^ 32 ->
                 wrap32 (b_total_move_ticks block + 1) = 0)
    by (intros ->; reflexivity).
  revert Hac Hnae. unfold phase_at.
  set (au := b_accelerate_until block) in *.
  set (da := b_decelerate_after block) in *.
  set (tmt := b_total_move_ticks block) in *.
  set (w := wrap32 (tmt + 1)) in *.
  set (ac := acceleration_change t). set (nae := next_accel_event t).
  clearbody ac nae w. clear bi.
  repeat match goal with
         | |- context [Z.eqb ?a ?b] => destruct (Z.eqb_spec a b)
         | |- context [Z.ltb ?a ?b] => destruct (Z.ltb_spec a b)
         end;
    simpl; intros Hac Hnae; first [congruence | exfalso; lia].
Qed.

Lemma phase_run (block : Block) (m : nat) (aratio : F32.float) (n : nat) :
  0 <= b_accelerate_until block <= b_decelerate_after block ->
  b_decelerate_after block <= b_total_move_ticks block < 2 ^ 32 ->
  forall (st : StepTicker) (t : tickinfo_t) (c : Z),
    block_info st
    = {| accelerate_until := b_accelerate_until block;
         decelerate_after := b_decelerate_after block;
         maximum_rate := b_maximum_rate block;
         deceleration_per_tick := b_deceleration_per_tick block;
         total_move_ticks := b_total_move_ticks block |} ->
    (m < num_motors st)%nat ->
    tick_info st !! m = Some t ->
    (acceleration_change t, next_accel_event t) = phase_at block aratio c ->
    axis_ratio t = aratio ->
    current_tick st = c ->
    0 <= c -> c + Z.of_nat n < 2 ^ 32 ->
    active_for m n st = true ->
    exists t',
      tick_info (fst (ticks n st)) !! m = Some t' /\
      (acceleration_change t', next_accel_event t')
      = phase_at block aratio (c + Z.of_nat n) /\
      axis_ratio t' = aratio /\
      current_tick (fst (ticks n st)) = c + Z.of_nat n.
Proof.
  intros Hb1 Hb2. induction n as [|n IH];
    intros st t c Hbi Hm Ht Hphase Har Hct Hc0 Hcn Hactive.
  - simpl. exists t. rewrite Z.add_0_r.
    split; [exact Ht|]. split; [exact Hphase|]. split; assumption.
  - simpl in Hactive.
    apply andb_true_iff in Hactive as [Hactive Hrest].
    apply andb_true_iff in Hactive as [Hmi Hslot].
    assert (Hact : steps_to_move t <> 0).
    { unfold slot_active in Hslot. rewrite Ht in Hslot.
      apply negb_true_iff, Z.eqb_neq in Hslot. exact Hslot. }
    pose proof (TIMER0_active_slot st m t Hmi Hm Ht Hact) as H1.
    cbv zeta in H1. rewrite Hct in H1.
    assert (Hw : wrap32 (c + 1) = c + 1)
      by (unfold wrap32; apply Z.mod_small; lia).
    rewrite Hw, Hbi in H1.
    rewrite ticks_S_fst.
    destruct (TIMER0_IRQHandler st) as [st1 evs1].
    cbn [fst snd] in H1, Hrest |- *.
    destruct H1 as (Ht1 & _ & _ & Hct1 & _ & Hbi1 & Hnum1 & _).
    subst aratio.
    pose proof (phase_at_step block (frequency st) c t Hb1 Hb2 Hc0
                  ltac:(lia) Hphase) as (Hphase1 & Har1).
    specialize (IH st1 _ (c + 1) ltac:(congruence) ltac:(lia) Ht1).
    rewrite Har1 in IH.
    specialize (IH Hphase1 eq_refl Hct1 ltac:(lia) ltac:(lia) Hrest).
    destruct IH as (t' & Ht' & Hp' & Har' & Hct').
    exists t'. split; [exact Ht'|].
    replace (c + Z.of_nat (S n)) with (c + 1 + Z.of_nat n) by lia.
    split; [exact Hp'|]. split; assumption.
Qed.

(** X18. The phases of a block. A block whose bounds satisfy
    [0 <= accelerate_until <= decelerate_after <= total_move_ticks] is
    activated with the tick counter at 0. As long as a motor of the block
    is active, after [n] ticks its slot holds the acceleration and the
    armed switch of [phase_at]: it accelerates by
    [acceleration_per_tick * axis_ratio] before tick [accelerate_until],
    holds its rate from there to [decelerate_after], and decelerates by
    [deceleration_per_tick * axis_ratio] from tick [decelerate_after] on;
    the switches fall on the same ticks for every motor, only the
    increments are scaled. The tick counter has counted the [n] ticks and
    [axis_ratio] is still the one of the conversion. *)
Theorem phases_follow_the_block (k_max_actuators : nat) (st : StepTicker)
    (block : Block) (pending : option Block) (m n : nat) :
  well_formed k_max_actuators st ->
  (m < num_motors st)%nat ->
  0 < block_steps block m ->
  0 <= b_accelerate_until block <= b_decelerate_after block ->
  b_decelerate_after block <= b_total_move_ticks block < 2 ^ 32 ->
  current_tick st = 0 ->
  Z.of_nat n < 2 ^ 32 ->
  let st0 := set_next_block pending (fst (copy_block block st)) in
  let aratio :=
    F32.mul (F32.div F32.one (F32.of_uint (b_steps_event_count block)))
            (F32.of_uint (block_steps block m)) in
  active_for m n st0 = true ->
  exists t,
    tick_info (fst (ticks n st0)) !! m = Some t /\
    (acceleration_change t, next_accel_event t)
    = phase_at block aratio (Z.of_nat n) /\
    axis_ratio t = aratio /\
    current_tick (fst (ticks n st0)) = Z.of_nat n.
Proof.
  intros (_ & Hti & Hnum) Hm Hsteps Hb1 Hb2 Hct Hn st0 aratio Hactive.
  pose proof (copy_block_fields block st) as Hf.
  destruct (copy_block block st) as [sc evc] eqn:Hcopy.
  destruct Hf as (_ & _ & _ & Hnm & _ & _ & Hct0 & _ & _ & Hbi & _ & Hslot & _).
  specialize (Hslot m).
  destruct (Nat.ltb_spec m (num_motors st)) as [_|]; [|lia].
  destruct (lookup_lt_is_Some_2 (tick_info st) m) as [t0 Ht0]; [lia|].
  rewrite Ht0 in Hslot. simpl in Hslot.
  unfold copy_slot in Hslot.
  destruct (Z.eqb_spec (block_steps block m) 0); [lia|].
  pose proof (phase_at_start block (frequency st) (block_inv block)
                (block_steps block m)
                (set_steps_to_move (block_steps block m) t0) Hb1)
    as (Hphase & Har).
  assert (Hbi0 : block_info st0
                 = {| accelerate_until := b_accelerate_until block;
                      decelerate_after := b_decelerate_after block;
                      maximum_rate := b_maximum_rate block;
                      deceleration_per_tick := b_deceleration_per_tick block;
                      total_move_ticks := b_total_move_ticks block |})
    by (subst st0; simpl; exact Hbi).
  assert (Hm0 : (m < num_motors st0)%nat) by (subst st0; simpl; lia).
  assert (Hslot0 : tick_info st0 !! m
                   = Some (convert_motor block (frequency st)
                             (block_inv block) (block_steps block m)
                             (set_steps_to_move (block_steps block m) t0)))
    by (subst st0; simpl; exact Hslot).
  assert (Hct00 : current_tick st0 = 0) by (subst st0; simpl; congruence).
  pose proof (phase_run block m aratio n Hb1 Hb2 st0 _ 0 Hbi0 Hm0 Hslot0
                Hphase Har Hct00 ltac:(lia) ltac:(lia) Hactive) as H.
  rewrite Z.add_0_l in H. exact H.
Qed.

Lemma phases_follow_the_block_witness :
  let st0 := set_next_block None (fst (copy_block trapezoid engine2)) in
  exists t,
    tick_info (fst (ticks 6 st0)) !! 0%nat = Some t /\
    acceleration_change t = F32.neg quarter /\
    next_accel_event t = 6 /\
    current_tick (fst (ticks 6 st0)) = 6.
Proof.
  destruct (phases_follow_the_block 5 engine2 trapezoid None 0 6)
    as (t & Ht & Hphase & _ & Hct).
  - solve_well_formed.
  - simpl. lia.
  - reflexivity.
  - simpl. lia.
  - simpl. lia.
  - reflexivity.
  - reflexivity.
  - vm_compute. reflexivity.
  - exists t. split; [exact Ht|].
    assert (Hp : phase_at trapezoid
                   (F32.mul
                      (F32.div F32.one
                         (F32.of_uint (b_steps_event_count trapezoid)))
                      (F32.of_uint (block_steps trapezoid 0))) (Z.of_nat 6)
                 = (F32.neg quarter, 6)) by (vm_compute; reflexivity).
    rewrite Hp in Hphase. injection Hphase as Hac Hnae.
    split; [exact Hac|]. split; [exact Hnae|exact Hct].
Defined.

(** ** Blocks back to back *)

Lemma ticks_add (a b : nat) (st : StepTicker) :
  ticks (a + b) st
  = (fst (ticks b (fst (ticks a st))),
     snd (ticks a st) ++ snd (ticks b (fst (ticks a st)))).
Proof.
  revert st. induction a as [|a IH]; intros st.
  - simpl. destruct (ticks b st). reflexivity.
  - simpl. destruct (TIMER0_IRQHandler st) as [st1 evs1].
    rewrite IH. destruct (ticks a st1) as [st2 evs2]. simpl.
    rewrite app_assoc. reflexivity.
Qed.

Lemma ticks_one (st : StepTicker) :
  ticks 1 st = TIMER0_IRQHandler st.
Proof.
  simpl. destruct (TIMER0_IRQHandler st) as [st1 evs1].
  rewrite app_nil_r. reflexivity.
Qed.

(** The steps of one block, from a freshly converted slot to the tick
    that finds the block done. *)
Lemma fresh_slot_run (m : nat) (s : Z) (n : nat) (st : StepTicker)
    (t : tickinfo_t) :
  0 < s < 2 ^ 32 ->
  (m < num_motors st)%nat ->
  tick_info st !! m = Some t ->
  slot_progress s 0 t ->
  keeps_moving n st = true ->
  finishes_now (fst (ticks n st)) = true ->
  Z.of_nat (count_ev (EvStep m) (snd (ticks n st))) = s /\
  num_motors (fst (ticks n st)) = num_motors st /\
  next_block (fst (ticks n st)) = next_block st.
Proof.
  intros Hs Hm Ht Hp Hkeep Hfin.
  pose proof (ticks_progress m s n (proj2 Hs) st 0%nat t Hm Ht Hp Hkeep)
    as Hrun.
  destruct (ticks n st) as [stn tr]. simpl in *.
  destruct Hrun as (Hnum & Hnb & t' & Ht' & Hk & Hcase).
  pose proof (finishes_now_inactive stn m t' Hfin ltac:(lia) Ht') as Hdone.
  split; [|split; assumption].
  destruct Hcase as [(Hmove & _)|(_ & Hc)]; [lia|exact Hc].
Qed.

Lemma copy_slot_fresh (block : Block) (freq inv : F32.float) (m : nat)
    (t : tickinfo_t) :
  0 < block_steps block m ->
  slot_progress (block_steps block m) 0 (copy_slot block freq inv m t).
Proof.
  intros Hs. unfold copy_slot.
  destruct (Z.eqb_spec (block_steps block m) 0); [lia|].
  unfold convert_motor, classify_phase, slot_progress.
  repeat match goal with |- context [if ?c then _ else _] =>
    destruct c end; simpl; (split; [reflexivity|left; lia]).
Qed.

(** X19. Two blocks back to back lose no step. A block is activated with
    a second one waiting in the mailbox; the engine is ticked until the
    first is found done ([n1] stepping ticks and the finishing tick, which
    takes over the second block) and on until the second is found done
    ([n2] more ticks). For a motor that moves in both blocks the number of
    [step()] calls over all these ticks is the sum of the two commanded
    counts, and the mailbox is empty from the hand-over on. *)
Theorem two_blocks_lose_no_step (k_max_actuators : nat) (st : StepTicker)
    (first second : Block) (m n1 n2 : nat) :
  well_formed k_max_actuators st ->
  (m < num_motors st)%nat ->
  0 < block_steps first m < 2 ^ 32 ->
  0 < block_steps second m < 2 ^ 32 ->
  let st0 := set_next_block (Some second) (fst (copy_block first st)) in
  keeps_moving n1 st0 = true ->
  finishes_now (fst (ticks n1 st0)) = true ->
  let st1 := fst (ticks (n1 + 1) st0) in
  keeps_moving n2 st1 = true ->
  finishes_now (fst (ticks n2 st1)) = true ->
  Z.of_nat (count_ev (EvStep m) (snd (ticks (n1 + 1 + n2) st0)))
  = block_steps first m + block_steps second m /\
  next_block st1 = None /\
  next_block (fst (ticks (n1 + 1 + n2) st0)) = None.
Proof.
  intros (_ & Hti & Hnum) Hm Hs1 Hs2 st0 Hkeep1 Hfin1 st1 Hkeep2 Hfin2.
  (* the first block *)
  pose proof (copy_block_fields first st) as Hf.
  destruct (copy_block first st) as [sc evc] eqn:Hcopy.
  destruct Hf as (_ & _ & _ & Hnm & _ & _ & _ & _ & _ & _ & Hlen & Hslot & _).
  assert (Hslotm := Hslot m).
  destruct (Nat.ltb_spec m (num_motors st)) as [_|]; [|lia].
  destruct (lookup_lt_is_Some_2 (tick_info st) m) as [t0 Ht0]; [lia|].
  rewrite Ht0 in Hslotm. simpl in Hslotm.
  assert (Hm0 : (m < num_motors st0)%nat) by (subst st0; simpl; lia).
  assert (Ht0' : tick_info st0 !! m
                 = Some (copy_slot first (frequency st) (block_inv first)
                           m t0)) by (subst st0; simpl; exact Hslotm).
  pose proof (fresh_slot_run m (block_steps first m) n1 st0 _ Hs1 Hm0 Ht0'
                (copy_slot_fresh first _ _ m t0 (proj1 Hs1)) Hkeep1 Hfin1)
    as (Hcount1 & Hnum1 & Hnb1).
  (* the hand-over *)
  set (sa := fst (ticks n1 st0)) in *.
  assert (Hst1 : st1 = fst (TIMER0_IRQHandler sa)).
  { subst st1. rewrite ticks_add. cbn [fst]. rewrite ticks_one.
    reflexivity. }
  assert (Hnba : next_block sa = Some second)
    by (rewrite Hnb1; subst st0; reflexivity).
  pose proof (TIMER0_finishing_trace sa Hfin1) as (Hfst & Hnostep & _).
  assert (Hst1' : st1 = set_next_block None
                          (fst (copy_block second (set_current_tick 0 sa)))).
  { rewrite Hst1, Hfst. unfold block_finished. simpl. rewrite Hnba.
    destruct (copy_block second (set_current_tick 0 sa)). reflexivity. }
  pose proof (copy_block_fields second (set_current_tick 0 sa)) as Hf2.
  destruct (copy_block second (set_current_tick 0 sa)) as [sc2 evc2].
  simpl in Hst1'.
  destruct Hf2 as (_ & _ & _ & Hnm2 & _ & _ & _ & _ & _ & _ & _ & Hslot2 & _).
  specialize (Hslot2 m). simpl in Hslot2, Hnm2.
  destruct (Nat.ltb_spec m (num_motors sa)) as [_|]; [|lia].
  assert (Hsa : exists ta, tick_info sa !! m = Some ta).
  { pose proof (ticks_progress m (block_steps first m) n1 (proj2 Hs1) st0
                  0%nat _ Hm0 Ht0'
                  (copy_slot_fresh first _ _ m t0 (proj1 Hs1)) Hkeep1) as Hr.
    fold sa in Hr. destruct (ticks n1 st0) as [sx tx]. simpl in *.
    destruct Hr as (_ & _ & ta & Hta & _).
    exists ta. exact Hta. }
  destruct Hsa as (ta & Hta). rewrite Hta in Hslot2. simpl in Hslot2.
  assert (Hm1 : (m < num_motors st1)%nat) by (rewrite Hst1'; simpl; lia).
  assert (Ht1 : tick_info st1 !! m
                = Some (copy_slot second (frequency sa) (block_inv second)
                          m ta)) by (rewrite Hst1'; simpl; exact Hslot2).
  (* the second block *)
  pose proof (fresh_slot_run m (block_steps second m) n2 st1 _ Hs2 Hm1 Ht1
                (copy_slot_fresh second _ _ m ta (proj1 Hs2)) Hkeep2 Hfin2)
    as (Hcount2 & _ & Hnb2).
  assert (Hnb1' : next_block st1 = None) by (rewrite Hst1'; reflexivity).
  rewrite (ticks_add (n1 + 1) n2). fold st1. cbn [fst snd].
  rewrite count_ev_app. rewrite (ticks_add n1 1). cbn [fst snd].
  rewrite count_ev_app. fold sa. rewrite ticks_one, Hnostep.
  split; [lia|]. split; [exact Hnb1'|]. congruence.
Qed.

Lemma two_blocks_lose_no_step_witness :
  let st0 := set_next_block (Some cruise) (fst (copy_block trapezoid engine2)) in
  Z.of_nat (count_ev (EvStep 0) (snd (ticks (6 + 1 + 4) st0))) = 4 + 2 /\
  next_block (fst (ticks (6 + 1 + 4) st0)) = None.
Proof.
  destruct (two_blocks_lose_no_step 5 engine2 trapezoid cruise 0 6 4)
    as (Hcount & _ & Hnb).
  - solve_well_formed.
  - simpl. lia.
  - change (block_steps trapezoid 0) with 4. lia.
  - change (block_steps cruise 0) with 2. lia.
  - vm_compute. reflexivity.
  - vm_compute. reflexivity.
  - vm_compute. reflexivity.
  - vm_compute. reflexivity.
  - split; [exact Hcount|exact Hnb].
Defined.

(** ** The unstep expiry alone *)

(** X20. An unstep expiry with nothing flagged touches no pin: when the
    unstep set is empty, and in particular on a second expiry with no tick
    in between, [unstep()] is called on no motor and the set stays
    empty. *)
Theorem unstep_expiry_is_idempotent (st : StepTicker) :
  let '(st1, evs1) := TIMER1_IRQHandler st in
  let '(st2, evs2) := TIMER1_IRQHandler st1 in
  evs2 = [EvTimer1Ack] /\ st2 = st1 /\
  (unstep st = 0 -> evs1 = [EvTimer1Ack]).
Proof.
  assert (Hnone : forall n,
            flat_map (unstep_motor 0) (seq 0 n) = []).
  { induction n as [|n IH]; [reflexivity|].
    rewrite seq_S, flat_map_app, IH. simpl.
    unfold unstep_motor. rewrite Z.testbit_0_l. reflexivity. }
  unfold TIMER1_IRQHandler, unstep_tick. simpl.
  rewrite Hnone. split; [reflexivity|]. split; [reflexivity|].
  intros ->. rewrite Hnone. reflexivity.
Qed.

(** * Completion is not guaranteed *)





